(** * Dynamic shop product placer: a shallow embedding of
      [dynamic_shop_placer_mod.py] and the properties of its scene
      composition pipeline.

    The Python module drives a USD stage through the [pxr] bindings.  The
    embedding keeps the three kinds of state the script touches apart:

    - the Python object store (the catalog dictionary and its entry
      dictionaries, with aliasing, since the variation pass copies before it
      writes);
    - the USD stage held by the [omni.usd] context (prims keyed by path
      string, with their type name, reference and payload list ops, their
      [xformOpOrder] token array and their [xformOp:*] attributes);
    - the process-wide random source and the printed diagnostics.

    Every method of [DynamicShopPlacer] becomes a computation in a state and
    exception monad over that world. *)

From Stdlib Require Import QArith.
From stdpp Require Import gmap strings list fin_maps.

Close Scope Q_scope.
Local Open Scope string_scope.
Local Open Scope list_scope.
Local Open Scope nat_scope.

(** ** Python values of the catalog *)

Definition Vec3 : Type := Q * Q * Q.
Definition Quat : Type := Q * Q * Q * Q.

(** One catalog record (the inner dictionaries of [PRODUCT_DATA]).  A field
    that is [None] is a key that is absent from the dictionary. *)
Record Entry := mkEntry {
  shelf : option string;
  category : option string;
  asset : option string;
  translate : option Vec3;
  scale : option Vec3;
  rotate : option Vec3;
  orient : option Quat;
}.

Abbreviation loc := nat.

(** Objects of the Python heap: an entry dictionary, or a dictionary from
    product identifiers to references to entry dictionaries.  A dictionary
    keeps its items in insertion order. *)
Inductive Obj :=
| OEntry (e : Entry)
| ODict (items : list (string * loc)).

Inductive Exn :=
| KeyError (key : string)
| ValueError
| AttributeError
| TypeError
| TfError.

(** ** The USD stage

    The scene graph is the host runtime's.  What follows is the part of it
    the script drives, as the [pxr] API documents it: a stage is a finite map
    from path strings to prims; list-op edits ([AddReference], [AddPayload])
    never list an item twice; the transform stack of a prim is its
    [xformOpOrder] token array over [xformOp:*] attributes.  Layer
    composition, path syntax and the creation of ancestor prims stay with
    the runtime and are not modelled. *)

Record Reference := mkReference { assetPath : string; primPath : string }.

Inductive Value :=
| VVec3 (v : Vec3)
| VQuat (real : Q) (imaginary : Vec3).

(** A prim as the script can observe it.  [attributes] maps an attribute
    name to its authored value, [None] for an attribute that was created but
    never set. *)
Record Prim := mkPrim {
  typeName : string;
  references : list Reference;
  payloads : list string;
  xformOpOrder : list string;
  attributes : gmap string (option Value);
}.

Abbreviation Stage := (gmap string Prim).

Definition set_typeName (ty : string) (p : Prim) : Prim :=
  mkPrim ty (references p) (payloads p) (xformOpOrder p) (attributes p).
Definition set_references (r : list Reference) (p : Prim) : Prim :=
  mkPrim (typeName p) r (payloads p) (xformOpOrder p) (attributes p).
Definition set_payloads (l : list string) (p : Prim) : Prim :=
  mkPrim (typeName p) (references p) l (xformOpOrder p) (attributes p).
Definition set_xformOpOrder (o : list string) (p : Prim) : Prim :=
  mkPrim (typeName p) (references p) (payloads p) o (attributes p).
Definition set_attributes (a : gmap string (option Value)) (p : Prim) : Prim :=
  mkPrim (typeName p) (references p) (payloads p) (xformOpOrder p) a.

Definition new_prim (ty : string) : Prim := mkPrim ty [] [] [] ∅.

(** Tokens of the [UsdGeomXformable] schema. *)
Definition op_translate : string := "xformOp:translate".
Definition op_scale : string := "xformOp:scale".
Definition op_rotateZYX : string := "xformOp:rotateZYX".
Definition op_orient : string := "xformOp:orient".
Definition resetXformStack_token : string := "!resetXformStack!".

(** [UsdStage.DefinePrim(path, typeName)] and the schema [Define] methods: a
    prim that is already defined is returned as it is, retyped only when a
    non-empty type name is requested; otherwise a new prim is authored. *)
Definition define_prim (ty path : string) (s : Stage) : Stage :=
  match s !! path with
  | Some p => if decide (ty = "") then s else <[path := set_typeName ty p]> s
  | None => <[path := new_prim ty]> s
  end.

(** [UsdReferences.ClearReferences] and [AddReference] at the default list
    position (back of the prepend list; an item already listed is moved
    there). *)
Definition ClearReferences (p : Prim) : Prim := set_references [] p.

#[global] Instance Reference_eq_dec : EqDecision Reference.
Proof. solve_decision. Defined.

Definition AddReference (r : Reference) (p : Prim) : Prim :=
  set_references (filter (λ x, x ≠ r) (references p) ++ [r]) p.

(** [UsdPayloads.AddPayload(assetPath)], same list position. *)
Definition AddPayload (a : string) (p : Prim) : Prim :=
  set_payloads (filter (λ x, x ≠ a) (payloads p) ++ [a]) p.

(** [UsdGeomXformable]: the reset flag is not a field of its own.
    [GetResetXformStack] tests for the token [!resetXformStack!] in
    [xformOpOrder]; [SetResetXformStack(True)] puts it in front when it is
    missing, [SetResetXformStack(False)] drops everything up to the last
    one. *)
Definition GetResetXformStack (p : Prim) : bool :=
  bool_decide (resetXformStack_token ∈ xformOpOrder p).

(** Everything after the last reset token, when there is one. *)
Fixpoint after_last_reset (o : list string) : option (list string) :=
  match o with
  | [] => None
  | t :: rest =>
      match after_last_reset rest with
      | Some tail => Some tail
      | None => if decide (t = resetXformStack_token) then Some rest else None
      end
  end.

Definition SetResetXformStack (b : bool) (p : Prim) : Prim :=
  if b then
    if GetResetXformStack p then p
    else set_xformOpOrder (resetXformStack_token :: xformOpOrder p) p
  else
    match after_last_reset (xformOpOrder p) with
    | Some tail => set_xformOpOrder tail p
    | None => p
    end.

(** [SetXformOpOrder(orderedXformOps, resetXformStack=False)], called by
    the script without its second argument: the array is rewritten from the
    given ops alone, with no reset token. *)
Definition SetXformOpOrder (ops : list string) (p : Prim) : Prim :=
  set_xformOpOrder ops p.

(** [ClearXformOpOrder()] is [SetXformOpOrder([])]. *)
Definition ClearXformOpOrder (p : Prim) : Prim := SetXformOpOrder [] p.

(** [AddXformOp]: refuses an op that is already in [xformOpOrder]; otherwise
    creates the attribute if it is not there and appends the op. *)
Definition create_attr (op : string) (m : gmap string (option Value))
  : gmap string (option Value) :=
  match m !! op with
  | Some _ => m
  | None => <[op := None]> m
  end.

Definition append_op (op : string) (p : Prim) : Prim :=
  set_attributes (create_attr op (attributes p))
    (set_xformOpOrder (xformOpOrder p ++ [op]) p).

Definition AddXformOp (op : string) (p : Prim) : option Prim :=
  if decide (op ∈ xformOpOrder p) then None else Some (append_op op p).

(** [op.Set(value)] *)
Definition SetAttr (op : string) (v : Value) (p : Prim) : Prim :=
  set_attributes (<[op := Some v]> (attributes p)) p.

(** ** The random source

    [random.random()] returns [k / 2^53] for 53 random bits [k];
    [random.uniform(a, b)] is [a + (b - a) * random()]; the index draws of
    [random.sample] are reductions of the raw stream.  The stream is explicit
    so that a run can be replayed. *)
Record RandomSource := mkRandomSource { raw : nat → nat; cursor : nat }.

Definition two53 : positive := 9007199254740992%positive.

Definition unit_interval (n : nat) : Q :=
  Qmake (Z.of_nat n `mod` Zpos two53) two53.

Definition uniform_of (a b : Q) (n : nat) : Q :=
  (a + (b - a) * unit_interval n)%Q.

(** Selection of [k] items without replacement from a pool, as
    [random.sample] does it: draw a position of the remaining pool, take the
    item there, and take it out of the pool. *)
Fixpoint sample_pool {A} (pool : list A) (k : nat) (draws : nat → nat) (c : nat)
  : list A :=
  match k with
  | O => []
  | S k' =>
      let j := draws c `mod` length pool in
      match pool !! j with
      | Some x => x :: sample_pool (delete j pool) k' draws (S c)
      | None => []
      end
  end.

(** ** Diagnostics printed by the script *)
Inductive Message :=
| MsgErrNoShelfForXform
| MsgAppliedXform (mode : string) (t r : Vec3)
| MsgErrNoStage
| MsgReferenced (asset_path prim_path : string)
| MsgLoading
| MsgLoadFailed (path : string)
| MsgLoaded (path : string)
| MsgErrNoShelf
| MsgCreatedHierarchy
| MsgPlacedProduct (pid : string) (t : Vec3)
| MsgRandomized (pid : string) (r : Vec3)
| MsgErrorPlacing (pid : string) (e : Exn)
| MsgPlacedCount (placed total : nat)
| MsgStarting
| MsgUsingCurrent
| MsgOpeningNew
| MsgCompleted.

(** ** Module-level flags *)
Record Config := mkConfig {
  use_current_scene : bool;
  APPLY_SHELF_WORLD_XFORM : bool;
  SHELF_WORLD_TRANSLATE : Vec3;
  SHELF_WORLD_ROTATE_ZYX_DEG : Vec3;
  SHELF_WORLD_XFORM_MODE : string;
}.

(** ** The world a run acts on

    [stage] is the stage open in the [omni.usd] context; [self.stage] is a
    handle on that same object (the script refreshes it from the context
    before it authors anything), so one field stands for both.  [files] is
    what [open_stage] can load.  [PRODUCT_DATA] is the address of the catalog
    dictionary. *)
Record World := mkWorld {
  heap : list Obj;
  PRODUCT_DATA : loc;
  stage : option Stage;
  files : gmap string Stage;
  rng : RandomSource;
  log : list Message;
}.

Definition set_heap (h : list Obj) (w : World) : World :=
  mkWorld h (PRODUCT_DATA w) (stage w) (files w) (rng w) (log w).
Definition set_stage (s : option Stage) (w : World) : World :=
  mkWorld (heap w) (PRODUCT_DATA w) s (files w) (rng w) (log w).
Definition set_rng (r : RandomSource) (w : World) : World :=
  mkWorld (heap w) (PRODUCT_DATA w) (stage w) (files w) r (log w).
Definition set_log (l : list Message) (w : World) : World :=
  mkWorld (heap w) (PRODUCT_DATA w) (stage w) (files w) (rng w) l.

(** ** State and exception monad *)
Inductive Result (A : Type) :=
| Ok (a : A)
| Raise (e : Exn).
Arguments Ok {A} a.
Arguments Raise {A} e.

Definition M (A : Type) : Type := World → Result A * World.

Definition ret {A} (a : A) : M A := λ w, (Ok a, w).

Definition bind {A B} (m : M A) (k : A → M B) : M B :=
  λ w, match m w with
       | (Ok a, w') => k a w'
       | (Raise e, w') => (Raise e, w')
       end.

Definition raise {A} (e : Exn) : M A := λ w, (Raise e, w).

(** [try: m except Exception as e: h e] *)
Definition try_except {A} (m : M A) (h : Exn → M A) : M A :=
  λ w, match m w with
       | (Ok a, w') => (Ok a, w')
       | (Raise e, w') => h e w'
       end.

#[global] Instance M_ret : MRet M := @ret.
#[global] Instance M_bind : MBind M := λ A B k m, bind m k.

Fixpoint for_each {A} (l : list A) (body : A → M unit) : M unit :=
  match l with
  | [] => ret tt
  | x :: rest => body x;; for_each rest body
  end.

Definition print (m : Message) : M unit :=
  λ w, (Ok tt, set_log (log w ++ [m]) w).


Definition gets {A} (f : World → A) : M A := λ w, (Ok (f w), w).

(** *** Python heap operations *)

Definition alloc (o : Obj) : M loc :=
  λ w, (Ok (length (heap w)), set_heap (heap w ++ [o]) w).

Definition store (l : loc) (o : Obj) : M unit :=
  λ w, (Ok tt, set_heap (<[l := o]> (heap w)) w).

Definition load_dict (l : loc) : M (list (string * loc)) :=
  λ w, match heap w !! l with
       | Some (ODict items) => (Ok items, w)
       | _ => (Raise TypeError, w)
       end.

Definition load_entry (l : loc) : M Entry :=
  λ w, match heap w !! l with
       | Some (OEntry e) => (Ok e, w)
       | _ => (Raise TypeError, w)
       end.

Fixpoint assoc_get (k : string) (items : list (string * loc)) : option loc :=
  match items with
  | [] => None
  | (k', v) :: rest => if decide (k' = k) then Some v else assoc_get k rest
  end.

(** [d[k] = v] on an insertion-ordered dictionary: an existing key keeps its
    position, a new key goes last. *)
Fixpoint assoc_set (k : string) (v : loc) (items : list (string * loc))
  : list (string * loc) :=
  match items with
  | [] => [(k, v)]
  | (k', v') :: rest =>
      if decide (k' = k) then (k, v) :: rest else (k', v') :: assoc_set k v rest
  end.

Definition dict_copy (d : loc) : M loc :=
  items ← load_dict d; alloc (ODict items).

Definition dict_keys (d : loc) : M (list string) :=
  items ← load_dict d; ret (items.*1).

Definition dict_items (d : loc) : M (list (string * loc)) := load_dict d.

Definition dict_getitem (d : loc) (k : string) : M loc :=
  items ← load_dict d;
  match assoc_get k items with
  | Some v => ret v
  | None => raise (KeyError k)
  end.

Definition dict_setitem (d : loc) (k : string) (v : loc) : M unit :=
  items ← load_dict d; store d (ODict (assoc_set k v items)).

Definition entry_copy (l : loc) : M loc :=
  e ← load_entry l; alloc (OEntry e).

Definition with_rotate (r : option Vec3) (e : Entry) : Entry :=
  mkEntry (shelf e) (category e) (asset e) (translate e) (scale e) r (orient e).
Definition with_orient (q : option Quat) (e : Entry) : Entry :=
  mkEntry (shelf e) (category e) (asset e) (translate e) (scale e) (rotate e) q.

(** [pd["rotate"] = r] *)
Definition entry_set_rotate (l : loc) (r : Vec3) : M unit :=
  e ← load_entry l; store l (OEntry (with_rotate (Some r) e)).

(** [pd.pop("orient", None)] *)
Definition entry_pop_orient (l : loc) : M unit :=
  e ← load_entry l; store l (OEntry (with_orient None e)).

(** [product_data[key]] on a field that may be absent *)
Definition getitem {A} (key : string) (field : option A) : M A :=
  match field with
  | Some v => ret v
  | None => raise (KeyError key)
  end.

(** *** Random source operations *)

Definition random_uniform (a b : Q) : M Q :=
  λ w, let r := rng w in
       (Ok (uniform_of a b (raw r (cursor r))),
        set_rng (mkRandomSource (raw r) (S (cursor r))) w).

(** [random.sample(population, k)]: [ValueError] unless [0 <= k <= n]. *)
Definition random_sample (population : list string) (k : Z) : M (list string) :=
  λ w, if decide (0 ≤ k ≤ Z.of_nat (length population))%Z then
         let r := rng w in
         (Ok (sample_pool population (Z.to_nat k) (raw r) (cursor r)),
          set_rng (mkRandomSource (raw r) (cursor r + Z.to_nat k)) w)
       else (Raise ValueError, w).

(** *** Stage operations through [self.stage] *)

(** Attribute access on [self.stage]; on [None] Python raises
    [AttributeError]. *)
Definition self_stage : M Stage :=
  λ w, match stage w with
       | Some s => (Ok s, w)
       | None => (Raise AttributeError, w)
       end.

Definition put_stage (s : Stage) : M unit :=
  λ w, (Ok tt, set_stage (Some s) w).

Definition GetPrimAtPath (path : string) : M (option Prim) :=
  s ← self_stage; ret (s !! path).

Definition DefinePrim (ty path : string) : M unit :=
  s ← self_stage; put_stage (define_prim ty path s).

(** A schema call on the prim handle at [path]. *)
Definition on_prim (path : string) (f : Prim → option Prim) : M unit :=
  s ← self_stage;
  match s !! path with
  | Some p =>
      match f p with
      | Some p' => put_stage (<[path := p']> s)
      | None => raise TfError
      end
  | None => raise TfError
  end.

Definition AddOp (path op : string) : M string :=
  on_prim path (AddXformOp op);; ret op.

Definition OpSet (path op : string) (v : Value) : M unit :=
  on_prim path (λ p, Some (SetAttr op v p)).

(** [omni.usd.get_context().open_stage(path)] *)
Definition open_stage (path : string) : M bool :=
  λ w, match files w !! path with
       | Some s => (Ok true, set_stage (Some s) w)
       | None => (Ok false, w)
       end.

(** [str.lower] on ASCII text *)
Definition lower_ascii (c : Ascii.ascii) : Ascii.ascii :=
  let n := Ascii.N_of_ascii c in
  if ((65 <=? n) && (n <=? 90))%N then Ascii.ascii_of_N (n + 32) else c.

Fixpoint lower (s : string) : string :=
  match s with
  | EmptyString => EmptyString
  | String c rest => String (lower_ascii c) (lower rest)
  end.

(** ** The methods of [DynamicShopPlacer] *)

(** [str(Path(BASE_PATH) / "assets" / "Shop Minimal Empty.usda")] with
    [BASE_PATH = "/workspace/isaac_sim_dynamic_store/"] *)
Definition empty_shop_path : string :=
  "/workspace/isaac_sim_dynamic_store/assets/Shop Minimal Empty.usda".

Definition anchor_path : string := "/World/Shelf".

Section Placer.
Variable cfg : Config.

Definition apply_shelf_world_transform_if_enabled : M bool :=
  if negb (APPLY_SHELF_WORLD_XFORM cfg) then ret true
  else
    shelf_prim ← GetPrimAtPath "/World/Shelf";
    match shelf_prim with
    | None => print MsgErrNoShelfForXform;; ret false
    | Some _ =>
        (if decide (lower (SHELF_WORLD_XFORM_MODE cfg) = "override")
         then on_prim "/World/Shelf" (λ p, Some (SetResetXformStack true p))
         else on_prim "/World/Shelf" (λ p, Some (SetResetXformStack false p)));;
        on_prim "/World/Shelf" (λ p, Some (ClearXformOpOrder p));;
        let t := SHELF_WORLD_TRANSLATE cfg in
        let r := SHELF_WORLD_ROTATE_ZYX_DEG cfg in
        translate_op ← AddOp "/World/Shelf" op_translate;
        OpSet "/World/Shelf" translate_op (VVec3 t);;
        rotate_op ← AddOp "/World/Shelf" op_rotateZYX;
        OpSet "/World/Shelf" rotate_op (VVec3 r);;
        on_prim "/World/Shelf" (λ p, Some (SetXformOpOrder [translate_op; rotate_op] p));;
        print (MsgAppliedXform (SHELF_WORLD_XFORM_MODE cfg) t r);;
        ret true
    end.

Definition add_shelf_to_existing_stage : M bool :=
  st ← gets stage;
  match st with
  | None => print MsgErrNoStage;; ret false
  | Some _ =>
      let target_shelf_path := "/World/Shelf" in
      let src_prim_path := "/World/Shelf" in
      shelf_prim ← GetPrimAtPath target_shelf_path;
      match shelf_prim with
      | None => DefinePrim "Xform" target_shelf_path
      | Some _ => ret tt
      end;;
      on_prim target_shelf_path (λ p, Some (ClearReferences p));;
      on_prim target_shelf_path
        (λ p, Some (AddReference (mkReference empty_shop_path src_prim_path) p));;
      print (MsgReferenced empty_shop_path src_prim_path);;
      apply_shelf_world_transform_if_enabled
  end.

Definition load_empty_shop_sync : M bool :=
  print MsgLoading;;
  success ← open_stage empty_shop_path;
  if negb success then print (MsgLoadFailed empty_shop_path);; ret false
  else
    print (MsgLoaded empty_shop_path);;
    apply_shelf_world_transform_if_enabled.

(** [shelf_categories.setdefault(shelf, set()).add(category)] *)
Fixpoint setdefault_add (shelf_level category : string)
    (shelf_categories : list (string * list string)) : list (string * list string) :=
  match shelf_categories with
  | [] => [(shelf_level, [category])]
  | (s, cs) :: rest =>
      if decide (s = shelf_level)
      then (s, if decide (category ∈ cs) then cs else cs ++ [category]) :: rest
      else (s, cs) :: setdefault_add shelf_level category rest
  end.

Fixpoint collect_shelf_categories (items : list (string * loc))
    (shelf_categories : list (string * list string)) : M (list (string * list string)) :=
  match items with
  | [] => ret shelf_categories
  | (product_id, l) :: rest =>
      product_data ← load_entry l;
      let shelf_level := default "Items_Lower" (shelf product_data) in
      let category := default "Unknown" (category product_data) in
      collect_shelf_categories rest (setdefault_add shelf_level category shelf_categories)
  end.

Definition create_product_hierarchy : M bool :=
  shelf_prim ← GetPrimAtPath "/World/Shelf";
  match shelf_prim with
  | None => print MsgErrNoShelf;; ret false
  | Some _ =>
      catalog ← gets PRODUCT_DATA;
      items ← dict_items catalog;
      shelf_categories ← collect_shelf_categories items [];
      for_each shelf_categories (λ sc,
        let shelf_path := "/World/Shelf/" +:+ sc.1 in
        DefinePrim "Scope" shelf_path;;
        for_each sc.2 (λ category,
          let category_path := shelf_path +:+ "/" +:+ category in
          DefinePrim "Scope" category_path));;
      print MsgCreatedHierarchy;;
      ret true
  end.

Definition product_path_of (product_id : string) (product_data : Entry) : string :=
  let shelf_level := default "Items_Lower" (shelf product_data) in
  let category := default "Unknown" (category product_data) in
  "/World/Shelf/" +:+ shelf_level +:+ "/" +:+ category +:+ "/" +:+ product_id.

Definition place_product (product_id : string) (pdata : loc) : M bool :=
  product_data ← load_entry pdata;
  let product_path := product_path_of product_id product_data in
  DefinePrim "" product_path;;
  a ← getitem "asset" (asset product_data);
  on_prim product_path (λ p, Some (AddPayload a p));;
  on_prim product_path (λ p, Some (ClearXformOpOrder p));;
  translate_op ← AddOp product_path op_translate;
  t ← getitem "translate" (translate product_data);
  OpSet product_path translate_op (VVec3 t);;
  scale_op ← AddOp product_path op_scale;
  sc ← getitem "scale" (scale product_data);
  OpSet product_path scale_op (VVec3 sc);;
  rotation_op ←
    match rotate product_data with
    | Some r =>
        op ← AddOp product_path op_rotateZYX;
        OpSet product_path op (VVec3 r);;
        ret (Some op)
    | None =>
        match orient product_data with
        | Some (q0, q1, q2, q3) =>
            op ← AddOp product_path op_orient;
            OpSet product_path op (VQuat q0 (q1, q2, q3));;
            ret (Some op)
        | None => ret None
        end
    end;
  match rotation_op with
  | Some rop =>
      on_prim product_path (λ p, Some (SetXformOpOrder [translate_op; rop; scale_op] p))
  | None =>
      on_prim product_path (λ p, Some (SetXformOpOrder [translate_op; scale_op] p))
  end;;
  print (MsgPlacedProduct product_id t);;
  ret true.

Definition randomize_one (randomized_data : loc) (pid : string) : M unit :=
  e ← dict_getitem randomized_data pid;
  pd ← entry_copy e;
  r1 ← random_uniform (-180) 180;
  r2 ← random_uniform (-180) 180;
  r3 ← random_uniform (-180) 180;
  let random_rotation := (r1, r2, r3) in
  entry_set_rotate pd random_rotation;;
  entry_pop_orient pd;;
  dict_setitem randomized_data pid pd;;
  print (MsgRandomized pid random_rotation).

Definition randomize_product_rotations (product_data_dict : loc) (num_products : Z)
  : M loc :=
  randomized_data ← dict_copy product_data_dict;
  product_ids ← dict_keys randomized_data;
  selected_products ←
    random_sample product_ids (Z.min num_products (Z.of_nat (length product_ids)));
  for_each selected_products (randomize_one randomized_data);;
  ret randomized_data.

Fixpoint place_loop (items : list (string * loc)) (success_count : nat) : M nat :=
  match items with
  | [] => ret success_count
  | (pid, pdata) :: rest =>
      count ← try_except
        (ok ← place_product pid pdata;
         ret (if (ok : bool) then S success_count else success_count))
        (λ e, print (MsgErrorPlacing pid e);; ret success_count);
      place_loop rest count
  end.

Definition place_all_products : M bool :=
  catalog ← gets PRODUCT_DATA;
  randomized_product_data ← randomize_product_rotations catalog 3;
  items ← dict_items randomized_product_data;
  success_count ← place_loop items 0;
  print (MsgPlacedCount success_count (length items));;
  ret (bool_decide (0 < success_count)).

Definition setup_scene_sync : M bool :=
  print MsgStarting;;
  attached ←
    (if use_current_scene cfg
     then print MsgUsingCurrent;; add_shelf_to_existing_stage
     else print MsgOpeningNew;; load_empty_shop_sync);
  if negb attached then ret false
  else
    built ← create_product_hierarchy;
    if negb built then ret false
    else
      placed ← place_all_products;
      if negb placed then ret false
      else print MsgCompleted;; ret true.

End Placer.

(** ** Closed forms used by the proofs *)

(** What one call of [place_product] leaves on the prim it defines,
    including the partially authored states of a call that raises. *)
Definition place_prim (e : Entry) (p0 : Prim) : Prim :=
  match asset e with
  | None => p0
  | Some a =>
      let p1 := append_op op_translate (ClearXformOpOrder (AddPayload a p0)) in
      match translate e with
      | None => p1
      | Some t =>
          let p2 := append_op op_scale (SetAttr op_translate (VVec3 t) p1) in
          match scale e with
          | None => p2
          | Some sc =>
              let p3 := SetAttr op_scale (VVec3 sc) p2 in
              match rotate e with
              | Some r =>
                  SetXformOpOrder [op_translate; op_rotateZYX; op_scale]
                    (SetAttr op_rotateZYX (VVec3 r) (append_op op_rotateZYX p3))
              | None =>
                  match orient e with
                  | Some (q0, q1, q2, q3) =>
                      SetXformOpOrder [op_translate; op_orient; op_scale]
                        (SetAttr op_orient (VQuat q0 (q1, q2, q3))
                           (append_op op_orient p3))
                  | None => SetXformOpOrder [op_translate; op_scale] p3
                  end
              end
          end
      end
  end.

Definition place_order (e : Entry) (old : list string) : list string :=
  match asset e with
  | None => old
  | Some _ =>
      match translate e with
      | None => [op_translate]
      | Some _ =>
          match scale e with
          | None => [op_translate; op_scale]
          | Some _ =>
              match rotate e with
              | Some _ => [op_translate; op_rotateZYX; op_scale]
              | None =>
                  match orient e with
                  | Some _ => [op_translate; op_orient; op_scale]
                  | None => [op_translate; op_scale]
                  end
              end
          end
      end
  end.

Definition place_attrs (e : Entry) (m : gmap string (option Value))
  : gmap string (option Value) :=
  match asset e with
  | None => m
  | Some _ =>
      let m1 := create_attr op_translate m in
      match translate e with
      | None => m1
      | Some t =>
          let m2 := create_attr op_scale (<[op_translate := Some (VVec3 t)]> m1) in
          match scale e with
          | None => m2
          | Some sc =>
              let m3 := <[op_scale := Some (VVec3 sc)]> m2 in
              match rotate e with
              | Some r =>
                  <[op_rotateZYX := Some (VVec3 r)]> (create_attr op_rotateZYX m3)
              | None =>
                  match orient e with
                  | Some (q0, q1, q2, q3) =>
                      <[op_orient := Some (VQuat q0 (q1, q2, q3))]>
                        (create_attr op_orient m3)
                  | None => m3
                  end
              end
          end
      end
  end.

Definition place_outcome (e : Entry) : Result bool :=
  match asset e with
  | None => Raise (KeyError "asset")
  | Some _ =>
      match translate e with
      | None => Raise (KeyError "translate")
      | Some _ =>
          match scale e with
          | None => Raise (KeyError "scale")
          | Some _ => Ok true
          end
      end
  end.

Definition place_log (pid : string) (e : Entry) : list Message :=
  match place_outcome e, translate e with
  | Ok _, Some t => [MsgPlacedProduct pid t]
  | _, _ => []
  end.

Definition prim_at (s : Stage) (path : string) : Prim :=
  default (new_prim "") (s !! path).


Definition override_requested (cfg : Config) : bool :=
  bool_decide (lower (SHELF_WORLD_XFORM_MODE cfg) = "override").

(** What [apply_shelf_world_transform_if_enabled] leaves on the anchor when
    the step is enabled and the anchor exists. *)
Definition world_xform_prim (cfg : Config) (p : Prim) : Prim :=
  SetXformOpOrder [op_translate; op_rotateZYX]
    (SetAttr op_rotateZYX (VVec3 (SHELF_WORLD_ROTATE_ZYX_DEG cfg))
       (append_op op_rotateZYX
          (SetAttr op_translate (VVec3 (SHELF_WORLD_TRANSLATE cfg))
             (append_op op_translate
                (ClearXformOpOrder
                   (SetResetXformStack (override_requested cfg) p)))))).

Definition base_reference : Reference :=
  mkReference empty_shop_path "/World/Shelf".

(** What [add_shelf_to_existing_stage] leaves on the anchor of an open
    stage. *)
Definition attach_prim (cfg : Config) (o : option Prim) : Prim :=
  let p := AddReference base_reference
             (ClearReferences (default (new_prim "Xform") o)) in
  if APPLY_SHELF_WORLD_XFORM cfg then world_xform_prim cfg p else p.

Definition world_xform_log (cfg : Config) : list Message :=
  if APPLY_SHELF_WORLD_XFORM cfg
  then [MsgAppliedXform (SHELF_WORLD_XFORM_MODE cfg)
          (SHELF_WORLD_TRANSLATE cfg) (SHELF_WORLD_ROTATE_ZYX_DEG cfg)]
  else [].

(** *** The variation pass on dereferenced catalogs *)

(** The entry dictionaries behind the items of a catalog dictionary. *)
Fixpoint resolve (h : list Obj) (items : list (string * loc))
  : option (list (string * Entry)) :=
  match items with
  | [] => Some []
  | (k, l) :: rest =>
      match h !! l with
      | Some (OEntry e) => (λ r, (k, e) :: r) <$> resolve h rest
      | _ => None
      end
  end.

Fixpoint entry_get (k : string) (ents : list (string * Entry)) : option Entry :=
  match ents with
  | [] => None
  | (k', e) :: rest => if decide (k' = k) then Some e else entry_get k rest
  end.

Fixpoint entry_update (k : string) (f : Entry → Entry) (ents : list (string * Entry))
  : list (string * Entry) :=
  match ents with
  | [] => []
  | (k', e) :: rest =>
      if decide (k' = k) then (k', f e) :: rest else (k', e) :: entry_update k f rest
  end.

Definition vary_entry (r : Vec3) (e : Entry) : Entry :=
  with_orient None (with_rotate (Some r) e).

Definition rotation_at (draws : nat → nat) (c : nat) : Vec3 :=
  (uniform_of (-180) 180 (draws c),
   uniform_of (-180) 180 (draws (S c)),
   uniform_of (-180) 180 (draws (S (S c)))).

Fixpoint vary_loop (sel : list string) (ents : list (string * Entry))
    (draws : nat → nat) (c : nat) : list (string * Entry) :=
  match sel with
  | [] => ents
  | pid :: rest =>
      vary_loop rest (entry_update pid (vary_entry (rotation_at draws c)) ents)
        draws (c + 3)
  end.

Fixpoint vary_log (sel : list string) (draws : nat → nat) (c : nat) : list Message :=
  match sel with
  | [] => []
  | pid :: rest => MsgRandomized pid (rotation_at draws c) :: vary_log rest draws (c + 3)
  end.

Definition vary_count (num : Z) (ents : list (string * Entry)) : nat :=
  Z.to_nat (Z.min num (Z.of_nat (length ents))).

Definition vary_selection (num : Z) (ents : list (string * Entry)) (g : RandomSource)
  : list string :=
  sample_pool (ents.*1) (vary_count num ents) (raw g) (cursor g).

Definition vary_pure (num : Z) (ents : list (string * Entry)) (g : RandomSource)
  : list (string * Entry) :=
  vary_loop (vary_selection num ents g) ents (raw g) (cursor g + vary_count num ents).

Definition advance (n : nat) (g : RandomSource) : RandomSource :=
  mkRandomSource (raw g) (cursor g + n).

(** *** The hierarchy build on dereferenced catalogs *)

Definition shelf_of (e : Entry) : string := default "Items_Lower" (shelf e).
Definition category_of (e : Entry) : string := default "Unknown" (category e).

Definition shelf_path (shelf_level : string) : string :=
  "/World/Shelf/" +:+ shelf_level.
Definition category_path (shelf_level category : string) : string :=
  shelf_path shelf_level +:+ "/" +:+ category.

Definition hier_groups_from (ents : list (string * Entry))
    (acc : list (string * list string)) : list (string * list string) :=
  fold_left (λ acc x, setdefault_add (shelf_of x.2) (category_of x.2) acc) ents acc.

Definition hier_groups (ents : list (string * Entry)) : list (string * list string) :=
  hier_groups_from ents [].



(** The paths the build defines, in the order it defines them. *)
Definition group_paths (sc : string * list string) : list string :=
  shelf_path sc.1 :: (category_path sc.1 <$> sc.2).

Definition hier_paths (groups : list (string * list string)) : list string :=
  mjoin (group_paths <$> groups).

Definition define_all (ty : string) (paths : list string) (s : Stage) : Stage :=
  fold_left (λ s p, define_prim ty p s) paths s.

Definition hier_stage (ents : list (string * Entry)) (s : Stage) : Stage :=
  define_all "Scope" (hier_paths (hier_groups ents)) s.


(** *** The placement loop on dereferenced catalogs *)

Definition place_at (s : Stage) (x : string * Entry) : Stage :=
  <[product_path_of x.1 x.2 :=
      place_prim x.2 (prim_at s (product_path_of x.1 x.2))]> s.

Definition place_stage (ents : list (string * Entry)) (s : Stage) : Stage :=
  fold_left place_at ents s.

Fixpoint place_logs (ents : list (string * Entry)) : list Message :=
  match ents with
  | [] => []
  | (pid, e) :: rest =>
      match place_outcome e with
      | Ok _ => place_log pid e
      | Raise x => [MsgErrorPlacing pid x]
      end ++ place_logs rest
  end.

Definition required_fields (e : Entry) : bool :=
  match asset e, translate e, scale e with
  | Some _, Some _, Some _ => true
  | _, _, _ => false
  end.

Fixpoint place_count (ents : list (string * Entry)) : nat :=
  match ents with
  | [] => 0
  | (pid, e) :: rest => (if required_fields e then 1 else 0) + place_count rest
  end.

(** *** The whole pipeline on dereferenced catalogs *)

(** Outcome of the attach stage: success flag, stage held by the context
    afterwards, and lines printed. *)
Definition attach_step (cfg : Config) (st : option Stage) (fl : gmap string Stage)
  : bool * option Stage * list Message :=
  if use_current_scene cfg then
    match st with
    | None => (false, None, [MsgUsingCurrent; MsgErrNoStage])
    | Some s =>
        (true, Some (<[anchor_path := attach_prim cfg (s !! anchor_path)]> s),
         MsgUsingCurrent :: MsgReferenced empty_shop_path "/World/Shelf"
           :: world_xform_log cfg)
    end
  else
    match fl !! empty_shop_path with
    | None => (false, st, [MsgOpeningNew; MsgLoading; MsgLoadFailed empty_shop_path])
    | Some fs =>
        if APPLY_SHELF_WORLD_XFORM cfg then
          match fs !! anchor_path with
          | None =>
              (false, Some fs,
               [MsgOpeningNew; MsgLoading; MsgLoaded empty_shop_path;
                MsgErrNoShelfForXform])
          | Some p =>
              (true, Some (<[anchor_path := world_xform_prim cfg p]> fs),
               [MsgOpeningNew; MsgLoading; MsgLoaded empty_shop_path]
               ++ world_xform_log cfg)
          end
        else (true, Some fs, [MsgOpeningNew; MsgLoading; MsgLoaded empty_shop_path])
    end.

(** Success flag and final stage of [setup_scene_sync]. *)
Definition pipeline (cfg : Config) (ents : list (string * Entry)) (g : RandomSource)
    (st : option Stage) (fl : gmap string Stage) : bool * option Stage :=
  match attach_step cfg st fl with
  | (true, Some s1, _) =>
      match s1 !! anchor_path with
      | Some _ =>
          let varied := vary_pure 3 ents g in
          (bool_decide (0 < place_count varied),
           Some (place_stage varied (hier_stage ents s1)))
      | None => (false, Some s1)
      end
  | (_, st1, _) => (false, st1)
  end.

(** Whether a run gets as far as the variation and placement stage. *)
Definition reaches_placement (cfg : Config) (st : option Stage)
    (fl : gmap string Stage) : bool :=
  match attach_step cfg st fl with
  | (true, Some s1, _) => bool_decide (is_Some (s1 !! anchor_path))
  | _ => false
  end.

(** *** The structure of a scene

    What two scenes are compared on: for every path, whether a prim is there
    and, if so, its type name, its references, its payloads and its op
    order (attribute values, such as the sampled angles, are left out). *)
Definition Shape : Type := string * list Reference * list string * list string.

Definition shape (p : Prim) : Shape :=
  (typeName p, references p, payloads p, xformOpOrder p).

Definition structure (s : Stage) : gmap string Shape := shape <$> s.

(** The part of the structure that no random draw can touch. *)
Definition fixed_structure (s : Stage)
  : gmap string (string * list Reference * list string) :=
  (λ p, (typeName p, references p, payloads p)) <$> s.

(** The same, per path, with "no prim" as a value. *)
Definition Comp : Type :=
  option string * list Reference * list string * list string.

Definition comp_of (o : option Prim) : Comp :=
  (typeName <$> o, default [] (references <$> o),
   default [] (payloads <$> o), default [] (xformOpOrder <$> o)).

(** What one authoring step does to the structure at its path. *)
Inductive TypeAct :=
| TDefault (d : string)   (* define if absent, with type [d] *)
| TSet (t : string).      (* define or retype to [t] *)

Inductive ListAct (A : Type) :=
| LKeep
| LSet (l : list A).
Arguments LKeep {A}.
Arguments LSet {A} l.

Record Desc := mkDesc {
  d_type : TypeAct;
  d_refs : ListAct Reference;
  d_pay : option string;
  d_order : ListAct string;
}.

Definition apply_type (a : TypeAct) (o : option string) : option string :=
  Some match a with
       | TDefault d => default d o
       | TSet t => t
       end.

Definition apply_list {A} (a : ListAct A) (l : list A) : list A :=
  match a with
  | LKeep => l
  | LSet l' => l'
  end.

Definition apply_pay (a : option string) (l : list string) : list string :=
  match a with
  | None => l
  | Some x => filter (λ y, y ≠ x) l ++ [x]
  end.

Definition apply_desc (d : Desc) (c : Comp) : Comp :=
  (apply_type (d_type d) c.1.1.1, apply_list (d_refs d) c.1.1.2,
   apply_pay (d_pay d) c.1.2, apply_list (d_order d) c.2).

Definition attach_desc (cfg : Config) : Desc :=
  mkDesc (TDefault "Xform") (LSet [base_reference]) None
    (if APPLY_SHELF_WORLD_XFORM cfg then LSet [op_translate; op_rotateZYX] else LKeep).

Definition scope_desc : Desc := mkDesc (TSet "Scope") LKeep None LKeep.

Definition place_desc (e : Entry) : Desc :=
  mkDesc (TDefault "") LKeep (asset e)
    (match asset e with
     | Some _ => LSet (place_order e [])
     | None => LKeep
     end).

Definition run_desc (q : string) (D : list (string * Desc)) (c : Comp) : Comp :=
  fold_left (λ c pd, if decide (pd.1 = q) then apply_desc pd.2 c else c) D c.

Definition scope_descs (paths : list string) : list (string * Desc) :=
  (λ p, (p, scope_desc)) <$> paths.

Definition place_descs (ents : list (string * Entry)) : list (string * Desc) :=
  (λ x, (product_path_of x.1 x.2, place_desc x.2)) <$> ents.

Definition pipeline_descs (cfg : Config) (ents varied : list (string * Entry))
  : list (string * Desc) :=
  (anchor_path, attach_desc cfg)
    :: scope_descs (hier_paths (hier_groups ents)) ++ place_descs varied.

Definition acts_at (q : string) (D : list (string * Desc)) : list Desc :=
  (filter (λ pd, pd.1 = q) D).*2.

Definition foldT (acts : list TypeAct) (o : option string) : option string :=
  fold_left (λ o a, apply_type a o) acts o.

Definition foldL {A} (acts : list (ListAct A)) (l : list A) : list A :=
  fold_left (λ l a, apply_list a l) acts l.

Definition foldP (acts : list (option string)) (l : list string) : list string :=
  fold_left (λ l a, apply_pay a l) acts l.

Definition same_kind {A} (a b : ListAct A) : Prop :=
  match a, b with
  | LKeep, LKeep => True
  | LSet _, LSet _ => True
  | _, _ => False
  end.

(** Two authoring steps that can differ only in the op order they set. *)
Definition desc_sim (a b : string * Desc) : Prop :=
  a.1 = b.1 ∧ d_type a.2 = d_type b.2 ∧ d_refs a.2 = d_refs b.2 ∧
  d_pay a.2 = d_pay b.2 ∧ same_kind (d_order a.2) (d_order b.2).

(** The stage a run in attach-into-current mode leaves, from the stage it
    found. *)
Definition current_mode_stage (cfg : Config) (ents varied : list (string * Entry))
    (s : Stage) : Stage :=
  place_stage varied
    (hier_stage ents (<[anchor_path := attach_prim cfg (s !! anchor_path)]> s)).

(** The product identifiers of the "Randomized rotation" lines of a log. *)
Fixpoint randomized_ids (l : list Message) : list string :=
  match l with
  | [] => []
  | MsgRandomized pid _ :: rest => pid :: randomized_ids rest
  | _ :: rest => randomized_ids rest
  end.

(** The fields the variation pass leaves alone. *)
Definition same_placement (e e' : Entry) : Prop :=
  shelf e' = shelf e ∧ category e' = category e ∧ asset e' = asset e ∧
  translate e' = translate e ∧ scale e' = scale e.

Definition entries_agree (ents ents' : list (string * Entry)) : Prop :=
  Forall2 (λ a b, a.1 = b.1 ∧ same_placement a.2 b.2) ents ents'.


(** *** What a whole run prints and draws *)

(** The lines [setup_scene_sync] prints, in order. *)
Definition setup_lines (cfg : Config) (ents : list (string * Entry)) (g : RandomSource)
    (st : option Stage) (fl : gmap string Stage) : list Message :=
  MsgStarting :: (attach_step cfg st fl).2 ++
  match (attach_step cfg st fl).1 with
  | (true, Some s1) =>
      match s1 !! anchor_path with
      | Some _ =>
          let varied := vary_pure 3 ents g in
          MsgCreatedHierarchy ::
            vary_log (vary_selection 3 ents g) (raw g) (cursor g + vary_count 3 ents) ++
            place_logs varied ++
            MsgPlacedCount (place_count varied) (length ents) ::
            (if bool_decide (0 < place_count varied) then [MsgCompleted] else [])
      | None => [MsgErrNoShelf]
      end
  | _ => []
  end.

(** The product identifiers of the per-entry outcome lines of a log
    ("Placed product" and "Error placing"), in the order printed. *)
Fixpoint outcome_ids (l : list Message) : list string :=
  match l with
  | [] => []
  | MsgPlacedProduct pid _ :: rest => pid :: outcome_ids rest
  | MsgErrorPlacing pid _ :: rest => pid :: outcome_ids rest
  | _ :: rest => outcome_ids rest
  end.

(** The random source after [setup_scene_sync]. *)
Definition setup_rng (cfg : Config) (ents : list (string * Entry)) (g : RandomSource)
    (st : option Stage) (fl : gmap string Stage) : RandomSource :=
  if reaches_placement cfg st fl
  then advance (vary_count 3 ents + 3 * length (vary_selection 3 ents g)) g
  else g.

(** ** Sample scenes and catalogs *)

Definition chips : Entry :=
  mkEntry (Some "Items_Lower") (Some "Snacks") (Some "chips.usd")
    (Some (1, 0, 0)%Q) (Some (1, 1, 1)%Q) None None.

Definition soda : Entry :=
  mkEntry (Some "Items_Upper") (Some "Drinks") (Some "soda.usd")
    (Some (0, 2, 0)%Q) (Some (1, 1, 1)%Q) (Some (0, 0, 90)%Q)
    (Some (1, 0, 0, 0)%Q).

Definition jar : Entry :=
  mkEntry None None (Some "jar.usd")
    (Some (0, 0, 3)%Q) (Some (2, 2, 2)%Q) None (Some (0, 2, 0, 0)%Q).

Definition broken : Entry :=
  mkEntry (Some "Items_Lower") (Some "Snacks") None
    (Some (1, 0, 0)%Q) (Some (1, 1, 1)%Q) None None.

Definition sample_items : list (string * loc) :=
  [("A", 0); ("B", 1); ("C", 2); ("D", 3)].

Definition sample_entries : list (string * Entry) :=
  [("A", chips); ("B", soda); ("C", jar); ("D", broken)].

Definition sample_heap : list Obj :=
  [OEntry chips; OEntry soda; OEntry jar; OEntry broken; ODict sample_items].

Definition sample_rng : RandomSource := mkRandomSource (λ n, 7 * n + 3) 0.

Definition bare_anchor : Stage := {[ "/World/Shelf" := new_prim "Xform" ]}.

Definition sample_world : World :=
  mkWorld sample_heap 4 (Some bare_anchor) ∅ sample_rng [].

Definition override_config : Config :=
  mkConfig true true (1, 2, 3)%Q (0, 0, 90)%Q "override".

Definition default_config : Config :=
  mkConfig true false (0, 0, 0)%Q (0, 0, 0)%Q "additive".

(** A scene that still holds a group from an earlier catalog. *)
Definition leftover_stage : Stage :=
  <[ "/World/Shelf/Old/Stuff" := new_prim "Scope" ]>
    (<[ "/World/Shelf/Old" := new_prim "Scope" ]> bare_anchor).


Definition single_entry_world : World :=
  mkWorld [OEntry chips; ODict [("A", 0)]] 1 (Some bare_anchor) ∅ sample_rng [].

(** A configuration that opens the shop file as a new stage, and a world
    with no scene open in which that file can be opened. *)
Definition new_stage_config : Config :=
  mkConfig false true (1, 2, 3)%Q (0, 0, 90)%Q "additive".

Definition shop_world : World :=
  mkWorld sample_heap 4 None {[ empty_shop_path := bare_anchor ]} sample_rng [].

(** ** Reasoning about the monad *)

Lemma bind_unfold {A B} (m : M A) (k : A → M B) w :
  (m ≫= k) w = match m w with
               | (Ok a, w') => k a w'
               | (Raise e, w') => (Raise e, w')
               end.
Proof. reflexivity. Qed.

Lemma on_prim_eq path f s w :
  stage w = Some s →
  on_prim path f w =
    match s !! path with
    | Some p => match f p with
                | Some p' => (Ok tt, set_stage (Some (<[path := p']> s)) w)
                | None => (Raise TfError, w)
                end
    | None => (Raise TfError, w)
    end.
Proof.
  intros Hs. unfold on_prim, self_stage. rewrite bind_unfold, Hs.
  destruct (s !! path) as [p|]; [|done]. destruct (f p); done.
Qed.

Lemma define_prim_untyped path (s : Stage) :
  define_prim "" path s = <[path := prim_at s path]> s.
Proof.
  unfold define_prim, prim_at. destruct (s !! path) as [p|] eqn:E; simpl.
  - by rewrite insert_id.
  - done.
Qed.

Lemma AddXformOp_fresh op p :
  op ∉ xformOpOrder p → AddXformOp op p = Some (append_op op p).
Proof. intros H. unfold AddXformOp. by rewrite decide_False. Qed.


Lemma ret_bind {A B} (a : A) (k : A → M B) w : (ret a ≫= k) w = k a w.
Proof. reflexivity. Qed.

Lemma raise_bind {A B} e (k : A → M B) w : (raise e ≫= k) w = (Raise e, w).
Proof. reflexivity. Qed.

Lemma print_bind {B} m (k : unit → M B) w :
  (print m ≫= k) w = k tt (set_log (log w ++ [m]) w).
Proof. reflexivity. Qed.

Lemma on_prim_bind {B} path f (k : unit → M B) h pd s p fl r l :
  (on_prim path (λ p, Some (f p)) ≫= k) (mkWorld h pd (Some (<[path := p]> s)) fl r l) =
  k tt (mkWorld h pd (Some (<[path := f p]> s)) fl r l).
Proof.
  rewrite bind_unfold. erewrite on_prim_eq by reflexivity.
  rewrite lookup_insert_eq. unfold set_stage; simpl. by rewrite insert_insert_eq.
Qed.

Lemma OpSet_bind {B} path op v (k : unit → M B) h pd s p fl r l :
  (OpSet path op v ≫= k) (mkWorld h pd (Some (<[path := p]> s)) fl r l) =
  k tt (mkWorld h pd (Some (<[path := SetAttr op v p]> s)) fl r l).
Proof. unfold OpSet. apply on_prim_bind. Qed.

Lemma AddOp_bind {B} path op (k : string → M B) h pd s p fl r l :
  op ∉ xformOpOrder p →
  (AddOp path op ≫= k) (mkWorld h pd (Some (<[path := p]> s)) fl r l) =
  k op (mkWorld h pd (Some (<[path := append_op op p]> s)) fl r l).
Proof.
  intros Hop. unfold AddOp. rewrite bind_unfold, bind_unfold.
  erewrite on_prim_eq by reflexivity.
  rewrite lookup_insert_eq, AddXformOp_fresh by done.
  unfold set_stage; simpl. by rewrite insert_insert_eq.
Qed.

Ltac fresh_op :=
  simpl; let Hin := fresh in
  intros Hin;
  repeat (apply elem_of_cons in Hin as [Hin|Hin]; [discriminate Hin|]);
  by apply elem_of_nil in Hin.

Ltac mstep :=
  first
    [ rewrite ret_bind
    | rewrite raise_bind
    | rewrite print_bind
    | rewrite on_prim_bind
    | rewrite OpSet_bind
    | rewrite AddOp_bind by fresh_op ].

Lemma place_product_eq pid pdata e s w :
  stage w = Some s →
  heap w !! pdata = Some (OEntry e) →
  place_product pid pdata w =
    (place_outcome e,
     set_log (log w ++ place_log pid e)
       (set_stage
          (Some (<[product_path_of pid e :=
                     place_prim e (prim_at s (product_path_of pid e))]> s)) w)).
Proof.
  destruct w as [h pd st f r l]. simpl. intros -> Hh.
  unfold place_product.
  rewrite bind_unfold. unfold load_entry at 1. simpl. rewrite Hh.
  rewrite bind_unfold. unfold DefinePrim at 1. rewrite bind_unfold. simpl.
  rewrite define_prim_untyped.
  unfold place_outcome, place_log, place_prim, place_outcome, set_stage, set_log.
  set (path := product_path_of pid e). set (p0 := prim_at s path).
  cbn [heap PRODUCT_DATA stage files rng log].
  destruct (asset e) as [a|]; simpl getitem.
  2:{ rewrite app_nil_r. done. }
  do 4 mstep.
  destruct (translate e) as [t|]; simpl getitem.
  2:{ mstep. rewrite app_nil_r. done. }
  do 3 mstep.
  destruct (scale e) as [sc|]; simpl getitem.
  2:{ mstep. rewrite app_nil_r. done. }
  do 2 mstep.
  destruct (rotate e) as [ro|].
  { rewrite bind_unfold. repeat mstep. unfold ret. repeat mstep. done. }
  destruct (orient e) as [[[[q0 q1] q2] q3]|].
  { rewrite bind_unfold. repeat mstep. unfold ret. repeat mstep. done. }
  repeat mstep. done.
Qed.

(** ** One placement *)

Lemma prim_eq (p q : Prim) :
  typeName p = typeName q → references p = references q →
  payloads p = payloads q → xformOpOrder p = xformOpOrder q →
  attributes p = attributes q → p = q.
Proof. destruct p, q; simpl; congruence. Qed.

Lemma place_prim_typeName e p : typeName (place_prim e p) = typeName p.
Proof.
  unfold place_prim.
  destruct (asset e), (translate e), (scale e), (rotate e),
    (orient e) as [[[[??]?]?]|]; reflexivity.
Qed.

Lemma place_prim_references e p : references (place_prim e p) = references p.
Proof.
  unfold place_prim.
  destruct (asset e), (translate e), (scale e), (rotate e),
    (orient e) as [[[[??]?]?]|]; reflexivity.
Qed.

Lemma place_prim_payloads e p :
  payloads (place_prim e p) =
    match asset e with
    | Some a => payloads (AddPayload a p)
    | None => payloads p
    end.
Proof.
  unfold place_prim.
  destruct (asset e), (translate e), (scale e), (rotate e),
    (orient e) as [[[[??]?]?]|]; reflexivity.
Qed.

Lemma place_prim_xformOpOrder e p :
  xformOpOrder (place_prim e p) = place_order e (xformOpOrder p).
Proof.
  unfold place_prim, place_order.
  destruct (asset e), (translate e), (scale e), (rotate e),
    (orient e) as [[[[??]?]?]|]; reflexivity.
Qed.

Lemma place_prim_attributes e p :
  attributes (place_prim e p) = place_attrs e (attributes p).
Proof.
  unfold place_prim, place_attrs.
  destruct (asset e), (translate e), (scale e), (rotate e),
    (orient e) as [[[[??]?]?]|]; reflexivity.
Qed.

Lemma lookup_create_attr op (m : gmap string (option Value)) k :
  create_attr op m !! k =
    if decide (k = op) then Some (default None (m !! op)) else m !! k.
Proof.
  unfold create_attr. destruct (m !! op) as [v|] eqn:E.
  - case_decide; subst; by rewrite ?E.
  - rewrite lookup_insert. repeat case_decide; subst; simpl; congruence.
Qed.

Lemma authored_attr op v (m : gmap string (option Value)) :
  <[op := Some v]> (create_attr op m) = <[op := Some v]> m.
Proof.
  unfold create_attr. destruct (m !! op); [done|]. apply insert_insert_eq.
Qed.

Lemma place_attrs_idem e m : place_attrs e (place_attrs e m) = place_attrs e m.
Proof.
  unfold place_attrs.
  destruct (asset e), (translate e), (scale e), (rotate e),
    (orient e) as [[[[??]?]?]|]; try reflexivity;
  rewrite ?authored_attr; apply map_eq; intros k;
  repeat (first [rewrite lookup_insert | rewrite lookup_create_attr | case_decide];
          subst; simpl; try reflexivity; try congruence).
Qed.

Lemma filter_twice {A} (P : A → Prop) `{∀ x, Decision (P x)} (l : list A) :
  filter P (filter P l) = filter P l.
Proof.
  induction l as [|x l IH]; [done|].
  rewrite filter_cons. destruct (decide (P x)) as [Hx|Hx]; [|done].
  rewrite filter_cons, decide_True by done. by rewrite IH.
Qed.

Lemma AddPayload_payloads_idem a p :
  payloads (AddPayload a (AddPayload a p)) = payloads (AddPayload a p).
Proof.
  unfold AddPayload; simpl. rewrite filter_app, filter_twice.
  rewrite filter_cons, decide_False by (intros Hne; by apply Hne).
  rewrite filter_nil. by rewrite app_nil_r.
Qed.

Lemma place_order_idem e o : place_order e (place_order e o) = place_order e o.
Proof.
  unfold place_order.
  destruct (asset e), (translate e), (scale e), (rotate e), (orient e); reflexivity.
Qed.

Lemma place_prim_idem e p : place_prim e (place_prim e p) = place_prim e p.
Proof.
  apply prim_eq.
  - by rewrite !place_prim_typeName.
  - by rewrite !place_prim_references.
  - rewrite !place_prim_payloads. destruct (asset e) as [a|] eqn:Ha; [|done].
    unfold AddPayload at 1. simpl. rewrite place_prim_payloads, Ha.
    apply AddPayload_payloads_idem.
  - rewrite !place_prim_xformOpOrder. apply place_order_idem.
  - rewrite !place_prim_attributes. apply place_attrs_idem.
Qed.

Lemma place_outcome_ok e :
  place_outcome e = Ok true ↔
  is_Some (asset e) ∧ is_Some (translate e) ∧ is_Some (scale e).
Proof.
  unfold place_outcome.
  destruct (asset e), (translate e), (scale e); split;
    try done; intros (H1 & H2 & H3);
    try (by destruct H1); try (by destruct H2); by destruct H3.
Qed.

(** C1.  Whatever transform ops a node carried before, a successful
    [place_product] leaves its op order at exactly [translate, rotation,
    scale] when the entry specifies a rotation ([rotate] or [orient]) and at
    exactly [translate, scale] when it specifies none; placing the same entry
    again succeeds and leaves the stage as it was, so nothing accumulates. *)
Theorem place_product_op_order (pid : string) (pdata : loc) (e : Entry)
    (s : Stage) (w : World) :
  stage w = Some s →
  heap w !! pdata = Some (OEntry e) →
  (place_product pid pdata w).1 = Ok true →
  let w' := (place_product pid pdata w).2 in
  ∃ s' p,
    stage w' = Some s' ∧ s' !! product_path_of pid e = Some p ∧
    (is_Some (rotate e) ∨ is_Some (orient e) →
       ∃ rop, (rop = op_rotateZYX ∨ rop = op_orient) ∧
              xformOpOrder p = [op_translate; rop; op_scale]) ∧
    (rotate e = None → orient e = None →
       xformOpOrder p = [op_translate; op_scale]) ∧
    (place_product pid pdata w').1 = Ok true ∧
    stage (place_product pid pdata w').2 = Some s'.
Proof.
  intros Hs Hh Hok w'. subst w'.
  rewrite (place_product_eq pid pdata e s w Hs Hh) in *. simpl in Hok. simpl.
  set (path := product_path_of pid e).
  exists (<[path := place_prim e (prim_at s path)]> s), (place_prim e (prim_at s path)).
  split; [done|]. split; [apply lookup_insert_eq|].
  apply place_outcome_ok in Hok as ([a Ha] & [t Ht] & [sc Hsc]).
  rewrite place_prim_xformOpOrder. unfold place_order. rewrite Ha, Ht, Hsc.
  split; [|split; [|split]].
  - intros [[r Hr]|[q Hq]].
    + rewrite Hr. exists op_rotateZYX. by split; [left|].
    + rewrite Hq. destruct (rotate e).
      * exists op_rotateZYX. by split; [left|].
      * exists op_orient. by split; [right|].
  - by intros -> ->.
  - erewrite place_product_eq; [| reflexivity | exact Hh]. simpl.
    apply place_outcome_ok. rewrite Ha, Ht, Hsc. eauto.
  - erewrite place_product_eq; [| reflexivity | exact Hh]. simpl.
    fold path. unfold prim_at. rewrite lookup_insert_eq. simpl.
    fold (prim_at s path). by rewrite place_prim_idem, insert_insert_eq.
Qed.

Lemma place_product_op_order_witness :
  ∃ s' p,
    stage (place_product "B" 1 sample_world).2 = Some s' ∧
    s' !! product_path_of "B" soda = Some p ∧
    (is_Some (rotate soda) ∨ is_Some (orient soda) →
       ∃ rop, (rop = op_rotateZYX ∨ rop = op_orient) ∧
              xformOpOrder p = [op_translate; rop; op_scale]) ∧
    (rotate soda = None → orient soda = None →
       xformOpOrder p = [op_translate; op_scale]) ∧
    (place_product "B" 1 (place_product "B" 1 sample_world).2).1 = Ok true ∧
    stage (place_product "B" 1 (place_product "B" 1 sample_world).2).2 = Some s'.
Proof.
  apply (place_product_op_order "B" 1 soda bare_anchor sample_world);
    vm_compute; reflexivity.
Defined.



(** ** Attaching the base fixture and the world transform *)

Lemma apply_world_transform_disabled cfg w :
  APPLY_SHELF_WORLD_XFORM cfg = false →
  apply_shelf_world_transform_if_enabled cfg w = (Ok true, w).
Proof. intros H. unfold apply_shelf_world_transform_if_enabled. by rewrite H. Qed.

Lemma apply_world_transform_no_anchor cfg s w :
  APPLY_SHELF_WORLD_XFORM cfg = true →
  stage w = Some s → s !! anchor_path = None →
  apply_shelf_world_transform_if_enabled cfg w =
    (Ok false, set_log (log w ++ [MsgErrNoShelfForXform]) w).
Proof.
  intros H Hs Hp. unfold apply_shelf_world_transform_if_enabled. rewrite H.
  cbn [negb].
  rewrite bind_unfold. unfold GetPrimAtPath, self_stage. rewrite bind_unfold, Hs.
  unfold anchor_path in Hp. simpl. rewrite Hp. reflexivity.
Qed.

Lemma apply_world_transform_eq cfg s p w :
  APPLY_SHELF_WORLD_XFORM cfg = true →
  stage w = Some s → s !! anchor_path = Some p →
  apply_shelf_world_transform_if_enabled cfg w =
    (Ok true,
     set_log (log w ++ [MsgAppliedXform (SHELF_WORLD_XFORM_MODE cfg)
                          (SHELF_WORLD_TRANSLATE cfg) (SHELF_WORLD_ROTATE_ZYX_DEG cfg)])
       (set_stage (Some (<[anchor_path := world_xform_prim cfg p]> s)) w)).
Proof.
  intros H Hs Hp. destruct w as [h pd st f r l]. simpl in Hs. subst st.
  unfold apply_shelf_world_transform_if_enabled. rewrite H. cbn [negb].
  rewrite bind_unfold. unfold GetPrimAtPath, self_stage. rewrite bind_unfold. simpl.
  unfold anchor_path in *. rewrite Hp.
  rewrite <- (insert_id s _ _ Hp) at 1.
  unfold world_xform_prim, override_requested.
  case_decide; rewrite bool_decide_decide; [rewrite decide_True by done|rewrite decide_False by done];
    repeat mstep; reflexivity.
Qed.

Lemma add_shelf_no_stage cfg w :
  stage w = None →
  add_shelf_to_existing_stage cfg w =
    (Ok false, set_log (log w ++ [MsgErrNoStage]) w).
Proof.
  intros Hs. unfold add_shelf_to_existing_stage.
  rewrite bind_unfold. unfold gets. by rewrite Hs.
Qed.

Lemma add_shelf_eq cfg s w :
  stage w = Some s →
  add_shelf_to_existing_stage cfg w =
    (Ok true,
     set_log (log w ++ MsgReferenced empty_shop_path "/World/Shelf" :: world_xform_log cfg)
       (set_stage (Some (<[anchor_path := attach_prim cfg (s !! anchor_path)]> s)) w)).
Proof.
  intros Hs. destruct w as [h pd st f r l]. simpl in Hs. subst st.
  unfold add_shelf_to_existing_stage.
  rewrite bind_unfold. unfold gets. cbn [stage].
  rewrite bind_unfold. unfold GetPrimAtPath at 1, self_stage at 1.
  rewrite bind_unfold. cbn [stage]. unfold ret at 1.
  unfold attach_prim, world_xform_log, anchor_path.
  assert (∃ p0, default (new_prim "Xform") (s !! "/World/Shelf") = p0 ∧
            (match s !! "/World/Shelf" with
             | Some _ => ret tt
             | None => DefinePrim "Xform" "/World/Shelf"
             end) (mkWorld h pd (Some s) f r l) =
            (Ok tt, mkWorld h pd (Some (<["/World/Shelf" := p0]> s)) f r l))
    as (p0 & Hp0 & Hdef).
  { destruct (s !! "/World/Shelf") as [p|] eqn:E.
    - exists p. split; [done|]. by rewrite insert_id.
    - exists (new_prim "Xform"). split; [done|].
      unfold DefinePrim, self_stage. rewrite bind_unfold. simpl.
      unfold define_prim. rewrite E. reflexivity. }
  rewrite bind_unfold, Hdef, Hp0. repeat mstep.
  destruct (APPLY_SHELF_WORLD_XFORM cfg) eqn:Happly.
  - erewrite apply_world_transform_eq;
      [| done | reflexivity | apply lookup_insert_eq].
    unfold set_log, set_stage; simpl.
    by rewrite insert_insert_eq, <- (assoc_L (++)).
  - by rewrite apply_world_transform_disabled.
Qed.

Lemma world_xform_prim_xformOpOrder cfg p :
  xformOpOrder (world_xform_prim cfg p) = [op_translate; op_rotateZYX].
Proof. reflexivity. Qed.

Lemma SetResetXformStack_fields b p :
  typeName (SetResetXformStack b p) = typeName p ∧
  references (SetResetXformStack b p) = references p ∧
  payloads (SetResetXformStack b p) = payloads p ∧
  attributes (SetResetXformStack b p) = attributes p.
Proof.
  unfold SetResetXformStack.
  destruct b; [destruct (GetResetXformStack p)|destruct (after_last_reset _)]; done.
Qed.

Lemma world_xform_prim_fields cfg p :
  typeName (world_xform_prim cfg p) = typeName p ∧
  references (world_xform_prim cfg p) = references p ∧
  payloads (world_xform_prim cfg p) = payloads p ∧
  attributes (world_xform_prim cfg p) =
    <[op_rotateZYX := Some (VVec3 (SHELF_WORLD_ROTATE_ZYX_DEG cfg))]>
      (<[op_translate := Some (VVec3 (SHELF_WORLD_TRANSLATE cfg))]> (attributes p)).
Proof.
  destruct (SetResetXformStack_fields (override_requested cfg) p) as (Ht & Hr & Hp & Ha).
  unfold world_xform_prim; simpl. rewrite Ht, Hr, Hp, Ha.
  by rewrite !authored_attr.
Qed.

Lemma world_xform_prim_idem cfg p :
  world_xform_prim cfg (world_xform_prim cfg p) = world_xform_prim cfg p.
Proof.
  destruct (world_xform_prim_fields cfg p) as (Ht & Hr & Hp & Ha).
  destruct (world_xform_prim_fields cfg (world_xform_prim cfg p)) as (Ht' & Hr' & Hp' & Ha').
  apply prim_eq; [first [congruence | reflexivity]..|].
  etrans; [exact Ha'|]. rewrite Ha. apply map_eq; intros k.
  repeat (first [rewrite lookup_insert | case_decide]; subst; simpl;
          try reflexivity; try congruence).
Qed.




(** Two stale references on the anchor: one reference remains. *)
Example add_shelf_two_stale_references :
  let stale := set_references [mkReference "old_a.usd" "/A"; mkReference "old_b.usd" "/B"]
                 (new_prim "Xform") in
  let w := mkWorld [] 0 (Some {[ "/World/Shelf" := stale ]}) ∅ sample_rng [] in
  (references <$> (stage (add_shelf_to_existing_stage default_config w).2
                     ≫= (λ s, s !! "/World/Shelf")))
  = Some [mkReference empty_shop_path "/World/Shelf"].
Proof. vm_compute. reflexivity. Qed.

(** ** The world transform step *)

Lemma world_xform_prim_reset_flag cfg p :
  GetResetXformStack (world_xform_prim cfg p) = false.
Proof. reflexivity. Qed.

(** C7 (defect in the code).  With the step enabled in ["override"] mode on a
    stage that has the anchor, the call returns [True] and the anchor's op
    order is exactly [translate, rotateZYX], but the reset flag requested by
    [SetResetXformStack(True)] is gone: it lives in [xformOpOrder], which
    [ClearXformOpOrder] and [SetXformOpOrder] rewrite without it. *)
Theorem override_mode_loses_reset_flag :
  let r := apply_shelf_world_transform_if_enabled override_config sample_world in
  r.1 = Ok true ∧
  ∃ s' p, stage r.2 = Some s' ∧ s' !! "/World/Shelf" = Some p ∧
          xformOpOrder p = [op_translate; op_rotateZYX] ∧
          GetResetXformStack p = false.
Proof.
  unfold sample_world.
  erewrite apply_world_transform_eq; [| reflexivity | reflexivity | reflexivity].
  simpl. split; [done|]. eexists _, _. split; [done|].
  split; [apply lookup_insert_eq|]. done.
Qed.

(** ** The Python heap and the variation pass *)

Lemma resolve_length h items ents :
  resolve h items = Some ents → length ents = length items.
Proof.
  revert ents. induction items as [|[k l] items IH]; intros ents; simpl.
  - by intros [= <-].
  - destruct (h !! l) as [[e|]|]; try done.
    destruct (resolve h items) as [r|]; simpl; [|done].
    intros [= <-]. simpl. f_equal. by apply IH.
Qed.

Lemma resolve_keys h items ents :
  resolve h items = Some ents → ents.*1 = items.*1.
Proof.
  revert ents. induction items as [|[k l] items IH]; intros ents; simpl.
  - by intros [= <-].
  - destruct (h !! l) as [[e|]|]; try done.
    destruct (resolve h items) as [r|]; simpl; [|done].
    intros [= <-]. simpl. f_equal. by apply IH.
Qed.

Lemma resolve_get h items ents pid :
  resolve h items = Some ents → pid ∈ items.*1 →
  ∃ l e, assoc_get pid items = Some l ∧ h !! l = Some (OEntry e) ∧
         entry_get pid ents = Some e.
Proof.
  revert ents. induction items as [|[k l] items IH]; intros ents; simpl.
  - intros _ Hin. by apply elem_of_nil in Hin.
  - destruct (h !! l) as [[e|]|] eqn:El; try done.
    destruct (resolve h items) as [r|] eqn:Er; simpl; [|done].
    intros [= <-] Hin. simpl. case_decide as Hk.
    + subst. eauto.
    + apply elem_of_cons in Hin as [->|Hin]; [done|]. by apply IH.
Qed.


(** Objects that stay where they are keep a catalog resolved. *)
Lemma resolve_preserved h h' items ents :
  resolve h items = Some ents →
  (∀ l e, h !! l = Some (OEntry e) → h' !! l = Some (OEntry e)) →
  resolve h' items = Some ents.
Proof.
  intros Hr Hpres. revert ents Hr.
  induction items as [|[k l] items IH]; intros ents; simpl; [done|].
  destruct (h !! l) as [[e|]|] eqn:El; try done.
  rewrite (Hpres _ _ El).
  destruct (resolve h items) as [r|] eqn:Er; simpl; [|done].
  intros [= <-]. by rewrite (IH r).
Qed.

Lemma resolve_assoc_set h h' items ents pid n e' :
  resolve h items = Some ents →
  (∀ l e, h !! l = Some (OEntry e) → h' !! l = Some (OEntry e)) →
  h' !! n = Some (OEntry e') →
  pid ∈ items.*1 →
  resolve h' (assoc_set pid n items) = Some (entry_update pid (λ _, e') ents).
Proof.
  intros Hr Hpres Hn. revert ents Hr.
  induction items as [|[k l] items IH]; intros ents; simpl.
  - intros _ Hin. by apply elem_of_nil in Hin.
  - destruct (h !! l) as [[e|]|] eqn:El; try done.
    destruct (resolve h items) as [r|] eqn:Er; simpl; [|done].
    intros [= <-] Hin. simpl. case_decide as Hk.
    + subst. simpl. rewrite Hn.
      by rewrite (resolve_preserved h h' items r Er Hpres).
    + simpl. rewrite (Hpres _ _ El).
      apply elem_of_cons in Hin as [->|Hin]; [done|].
      by rewrite (IH r eq_refl Hin).
Qed.

Lemma entry_update_ext k f g ents :
  (∀ e, entry_get k ents = Some e → f e = g e) →
  entry_update k f ents = entry_update k g ents.
Proof.
  induction ents as [|[k' e] ents IH]; simpl; [done|].
  intros H. case_decide.
  - by rewrite H.
  - by rewrite IH.
Qed.

Lemma assoc_set_keys pid n items :
  pid ∈ items.*1 → (assoc_set pid n items).*1 = items.*1.
Proof.
  induction items as [|[k l] items IH]; simpl.
  - intros Hin. by apply elem_of_nil in Hin.
  - intros Hin. case_decide as Hk; [by subst|].
    apply elem_of_cons in Hin as [->|Hin]; [done|].
    rewrite !fmap_cons. f_equal. by apply IH.
Qed.

Lemma assoc_get_set_eq pid n items :
  assoc_get pid (assoc_set pid n items) = Some n.
Proof.
  induction items as [|[k l] items IH]; simpl.
  - by rewrite decide_True.
  - case_decide as Hk; simpl; [by rewrite decide_True|]. by rewrite decide_False.
Qed.

Lemma assoc_get_set_ne pid pid' n items :
  pid ≠ pid' → assoc_get pid' (assoc_set pid n items) = assoc_get pid' items.
Proof.
  intros Hne. induction items as [|[k l] items IH]; simpl.
  - by rewrite decide_False.
  - case_decide as Hk; simpl.
    + subst. by rewrite !decide_False.
    + case_decide; [done|]. apply IH.
Qed.

Lemma load_dict_bind {B} d its (k : list (string * loc) → M B) w :
  heap w !! d = Some (ODict its) → (load_dict d ≫= k) w = k its w.
Proof. intros H. rewrite bind_unfold. unfold load_dict. by rewrite H. Qed.

Lemma load_entry_bind {B} l e (k : Entry → M B) w :
  heap w !! l = Some (OEntry e) → (load_entry l ≫= k) w = k e w.
Proof. intros H. rewrite bind_unfold. unfold load_entry. by rewrite H. Qed.

Lemma alloc_bind {B} o (k : loc → M B) w :
  (alloc o ≫= k) w = k (length (heap w)) (set_heap (heap w ++ [o]) w).
Proof. reflexivity. Qed.

Lemma store_bind {B} l o (k : unit → M B) w :
  (store l o ≫= k) w = k tt (set_heap (<[l := o]> (heap w)) w).
Proof. reflexivity. Qed.

Lemma random_uniform_bind {B} a b (k : Q → M B) w :
  (random_uniform a b ≫= k) w =
  k (uniform_of a b (raw (rng w) (cursor (rng w))))
    (set_rng (mkRandomSource (raw (rng w)) (S (cursor (rng w)))) w).
Proof. reflexivity. Qed.

Lemma insert_last {A} (h : list A) (x y : A) :
  <[length h := y]> (h ++ [x]) = h ++ [y].
Proof.
  rewrite insert_app_r_alt by lia. by rewrite Nat.sub_diag.
Qed.

Ltac wsimpl :=
  cbn [heap PRODUCT_DATA stage files rng log raw cursor
       set_heap set_stage set_rng set_log].

Lemma randomize_one_eq rd pid w its l e :
  heap w !! rd = Some (ODict its) →
  assoc_get pid its = Some l →
  heap w !! l = Some (OEntry e) →
  randomize_one rd pid w =
    (Ok tt,
     let r := rotation_at (raw (rng w)) (cursor (rng w)) in
     set_log (log w ++ [MsgRandomized pid r])
       (set_rng (advance 3 (rng w))
          (set_heap (<[rd := ODict (assoc_set pid (length (heap w)) its)]>
                       (heap w ++ [OEntry (vary_entry r e)])) w))).
Proof.
  destruct w as [h pd st f g lg]. simpl. intros Hrd Hget Hl.
  assert (rd < length h) as Hlt by (by eapply lookup_lt_Some).
  unfold randomize_one.
  rewrite bind_unfold. unfold dict_getitem.
  rewrite load_dict_bind with (its := its) by done. rewrite Hget.
  unfold ret at 1. cbv beta iota.
  rewrite bind_unfold. unfold entry_copy.
  rewrite load_entry_bind with (e := e) by done.
  unfold alloc. cbv beta iota. wsimpl.
  rewrite !random_uniform_bind. wsimpl.
  rewrite bind_unfold. unfold entry_set_rotate.
  rewrite load_entry_bind with (e := e)
    by (wsimpl; by rewrite lookup_app_r, Nat.sub_diag by lia).
  unfold store at 1. cbv beta iota. wsimpl.
  rewrite insert_last.
  rewrite bind_unfold. unfold entry_pop_orient.
  erewrite load_entry_bind
    by (wsimpl; by rewrite lookup_app_r, Nat.sub_diag by lia).
  unfold store at 1. cbv beta iota. wsimpl.
  rewrite insert_last.
  rewrite bind_unfold. unfold dict_setitem.
  rewrite load_dict_bind with (its := its)
    by (wsimpl; by rewrite lookup_app_l).
  unfold store at 1. cbv beta iota. wsimpl.
  unfold print, advance, rotation_at, vary_entry, set_log, set_heap, set_rng.
  simpl. repeat f_equal; lia.
Qed.

Lemma advance_advance n m g : advance n (advance m g) = advance (m + n) g.
Proof. unfold advance; simpl. f_equal. lia. Qed.

Lemma advance_0 g : advance 0 g = g.
Proof. destruct g. unfold advance; simpl. f_equal. lia. Qed.

Lemma randomize_loop_spec rd sel : ∀ w its ents,
  heap w !! rd = Some (ODict its) →
  resolve (heap w) its = Some ents →
  (∀ pid, pid ∈ sel → pid ∈ its.*1) →
  ∃ w' its',
    for_each sel (randomize_one rd) w = (Ok tt, w') ∧
    heap w' !! rd = Some (ODict its') ∧
    resolve (heap w') its' =
      Some (vary_loop sel ents (raw (rng w)) (cursor (rng w))) ∧
    its'.*1 = its.*1 ∧
    (∀ l, l < length (heap w) → l ≠ rd → heap w' !! l = heap w !! l) ∧
    (length (heap w) ≤ length (heap w'))%nat ∧
    (∀ pid, pid ∉ sel → assoc_get pid its' = assoc_get pid its) ∧
    (∀ pid, pid ∈ sel →
       ∃ l', assoc_get pid its' = Some l' ∧ (length (heap w) ≤ l')%nat) ∧
    rng w' = advance (3 * length sel) (rng w) ∧
    stage w' = stage w ∧ files w' = files w ∧ PRODUCT_DATA w' = PRODUCT_DATA w ∧
    log w' = log w ++ vary_log sel (raw (rng w)) (cursor (rng w)).
Proof.
  induction sel as [|pid rest IH]; intros w its ents Hrd Hres Hsel.
  - exists w, its. simpl. rewrite advance_0, app_nil_r.
    repeat split; try done. intros pid Hin. by apply elem_of_nil in Hin.
  - assert (pid ∈ its.*1) as Hpid by (apply Hsel; left).
    destruct (resolve_get _ _ _ _ Hres Hpid) as (l & e & Hget & Hl & Hent).
    assert (rd < length (heap w)) as Hlt by (by eapply lookup_lt_Some).
    set (r := rotation_at (raw (rng w)) (cursor (rng w))).
    set (v := vary_entry r e).
    set (its1 := assoc_set pid (length (heap w)) its).
    set (h1 := <[rd := ODict its1]> (heap w ++ [OEntry v])).
    set (w1 := set_log (log w ++ [MsgRandomized pid r])
                 (set_rng (advance 3 (rng w)) (set_heap h1 w))).
    assert (randomize_one rd pid w = (Ok tt, w1)) as Hstep.
    { by rewrite (randomize_one_eq rd pid w its l e Hrd Hget Hl). }
    assert (∀ l0, l0 < length (heap w) → l0 ≠ rd → h1 !! l0 = heap w !! l0) as Hpres.
    { intros l0 Hl0 Hne. unfold h1.
      rewrite list_lookup_insert_ne by done. by rewrite lookup_app_l. }
    assert (∀ l0 e0, heap w !! l0 = Some (OEntry e0) → h1 !! l0 = Some (OEntry e0))
      as Hpres'.
    { intros l0 e0 Hl0. rewrite Hpres; [done| by eapply lookup_lt_Some |].
      intros ->. congruence. }
    assert (h1 !! length (heap w) = Some (OEntry v)) as Hnew.
    { unfold h1. rewrite list_lookup_insert_ne by lia.
      by rewrite lookup_app_r, Nat.sub_diag by lia. }
    assert (h1 !! rd = Some (ODict its1)) as Hrd1.
    { unfold h1. apply list_lookup_insert_eq. rewrite length_app. simpl. lia. }
    assert (resolve h1 its1 = Some (entry_update pid (vary_entry r) ents)) as Hres1.
    { unfold its1.
      rewrite (resolve_assoc_set (heap w) h1 its ents pid _ v Hres Hpres' Hnew Hpid).
      f_equal. apply entry_update_ext. intros e0 He0.
      rewrite Hent in He0. by injection He0 as <-. }
    assert (length h1 = S (length (heap w))) as Hlen1.
    { unfold h1. rewrite length_insert, length_app. simpl. lia. }
    destruct (IH w1 its1 _ Hrd1 Hres1) as
      (w' & its' & Hrun & Hrd' & Hres' & Hkeys & Hkeep & Hlen & Hout & Hin & Hrng &
       Hst & Hfl & Hpd & Hlog).
    { intros pid' Hin'. unfold its1. rewrite assoc_set_keys by done.
      apply Hsel. by right. }
    exists w', its'. simpl in *.
    split. { rewrite bind_unfold, Hstep. exact Hrun. }
    split; [done|]. split; [done|].
    split. { rewrite Hkeys. unfold its1. by apply assoc_set_keys. }
    split. { intros l0 Hl0 Hne. rewrite Hkeep by (done || lia). by apply Hpres. }
    split; [lia|].
    split. { intros pid' Hnin. apply not_elem_of_cons in Hnin as [Hne Hnin].
             rewrite Hout by done. by apply assoc_get_set_ne. }
    split. { intros pid' Hin'. destruct (decide (pid' ∈ rest)) as [Hr|Hr].
             - destruct (Hin pid' Hr) as (l' & Hl' & Hge). exists l'. split; [done|lia].
             - apply elem_of_cons in Hin' as [->|Hin']; [|done].
               exists (length (heap w)). split; [|lia].
               rewrite Hout by done. apply assoc_get_set_eq. }
    split. { rewrite Hrng, advance_advance. f_equal. lia. }
    split; [done|]. split; [done|]. split; [done|].
    rewrite Hlog, <- (assoc_L (++)). simpl. reflexivity.
Qed.

(** *** [random.sample]: distinct items of the population *)

Lemma sample_pool_elem {A} (pool : list A) k draws c x :
  x ∈ sample_pool pool k draws c → x ∈ pool.
Proof.
  revert pool c. induction k as [|k IH]; intros pool c; simpl.
  - intros H. by apply elem_of_nil in H.
  - destruct (pool !! (draws c `mod` length pool)) as [y|] eqn:E.
    + intros [->|H]%elem_of_cons.
      * by eapply list_elem_of_lookup_2.
      * eapply list_elem_of_delete_inv, IH, H.
    + intros H. by apply elem_of_nil in H.
Qed.




Lemma random_sample_bind {B} population kz (k : list string → M B) w :
  (0 ≤ kz ≤ Z.of_nat (length population))%Z →
  (random_sample population kz ≫= k) w =
  k (sample_pool population (Z.to_nat kz) (raw (rng w)) (cursor (rng w)))
    (set_rng (advance (Z.to_nat kz) (rng w)) w).
Proof.
  intros H. rewrite bind_unfold. unfold random_sample. by rewrite decide_True.
Qed.

Lemma randomize_spec d num w items ents :
  heap w !! d = Some (ODict items) →
  resolve (heap w) items = Some ents →
  (0 ≤ num)%Z →
  let sel := vary_selection num ents (rng w) in
  ∃ w' items',
    randomize_product_rotations d num w = (Ok (length (heap w)), w') ∧
    heap w' !! length (heap w) = Some (ODict items') ∧
    resolve (heap w') items' = Some (vary_pure num ents (rng w)) ∧
    items'.*1 = items.*1 ∧
    (∀ l, l < length (heap w) → heap w' !! l = heap w !! l) ∧
    (∀ pid, pid ∉ sel → assoc_get pid items' = assoc_get pid items) ∧
    (∀ pid, pid ∈ sel →
       ∃ l', assoc_get pid items' = Some l' ∧ (length (heap w) < l')%nat) ∧
    rng w' = advance (vary_count num ents + 3 * length sel) (rng w) ∧
    stage w' = stage w ∧ files w' = files w ∧ PRODUCT_DATA w' = PRODUCT_DATA w ∧
    log w' = log w ++
             vary_log sel (raw (rng w)) (cursor (rng w) + vary_count num ents).
Proof.
  intros Hd Hres Hnum sel.
  pose proof (resolve_keys _ _ _ Hres) as Hkeys.
  pose proof (resolve_length _ _ _ Hres) as Hlen.
  set (w0 := set_rng (advance (vary_count num ents) (rng w))
               (set_heap (heap w ++ [ODict items]) w)).
  assert (d < length (heap w)) as Hlt by (by eapply lookup_lt_Some).
  assert (heap w0 !! length (heap w) = Some (ODict items)) as Hrd0.
  { unfold w0; simpl. by rewrite lookup_app_r, Nat.sub_diag by lia. }
  assert (resolve (heap w0) items = Some ents) as Hres0.
  { apply (resolve_preserved (heap w)); [done|]. intros l e Hl.
    unfold w0; simpl. rewrite lookup_app_l; [done|]. by eapply lookup_lt_Some. }
  destruct (randomize_loop_spec (length (heap w)) sel w0 items ents Hrd0 Hres0)
    as (w' & items' & Hrun & Hrd' & Hres' & Hk & Hkeep & Hlen' & Hout & Hin & Hrng &
        Hst & Hfl & Hpd & Hlog).
  { intros pid Hpid. rewrite <- Hkeys. by eapply sample_pool_elem. }
  exists w', items'.
  split.
  { unfold randomize_product_rotations.
    rewrite bind_unfold. unfold dict_copy.
    rewrite load_dict_bind with (its := items) by done.
    unfold alloc. cbv beta iota.
    rewrite bind_unfold. unfold dict_keys.
    rewrite load_dict_bind with (its := items)
      by (simpl; by rewrite lookup_app_r, Nat.sub_diag by lia).
    unfold ret at 1. cbv beta iota.
    rewrite random_sample_bind by (rewrite length_fmap; lia).
    rewrite bind_unfold.
    replace (set_rng _ _) with w0.
    2:{ unfold w0, vary_count. simpl. by rewrite length_fmap, Hlen. }
    replace (sample_pool _ _ _ _) with sel.
    2:{ unfold sel, vary_selection, vary_count. simpl.
        by rewrite length_fmap, Hlen, Hkeys. }
    by rewrite Hrun. }
  split; [done|]. split; [done|]. split; [done|].
  split.
  { intros l Hl. rewrite Hkeep.
    - unfold w0; simpl. by rewrite lookup_app_l.
    - unfold w0; simpl. rewrite length_app. simpl. lia.
    - lia. }
  split; [done|].
  split.
  { intros pid Hpid. destruct (Hin pid Hpid) as (l' & Hl' & Hge).
    exists l'. split; [done|]. unfold w0 in Hge; simpl in Hge.
    rewrite length_app in Hge. simpl in Hge. lia. }
  split. { rewrite Hrng. unfold w0; simpl. by rewrite advance_advance. }
  split; [done|]. split; [done|]. split; [done|].
  rewrite Hlog. reflexivity.
Qed.

(** *** What the variation pass does to the entries *)









(** A negative count never reaches the loop: [random.sample] rejects it. *)
Lemma randomize_negative_count d num w items :
  heap w !! d = Some (ODict items) → (num < 0)%Z →
  (randomize_product_rotations d num w).1 = Raise ValueError.
Proof.
  intros Hd Hnum. unfold randomize_product_rotations.
  rewrite bind_unfold. unfold dict_copy.
  rewrite load_dict_bind with (its := items) by done.
  unfold alloc. cbv beta iota.
  rewrite bind_unfold. unfold dict_keys.
  assert (d < length (heap w)) by (by eapply lookup_lt_Some).
  rewrite load_dict_bind with (its := items)
    by (simpl; by rewrite lookup_app_r, Nat.sub_diag by lia).
  unfold ret at 1. cbv beta iota.
  rewrite bind_unfold. unfold random_sample.
  rewrite decide_False by lia. reflexivity.
Qed.



(** ** The placement loop *)

Lemma place_outcome_required e :
  place_outcome e = if required_fields e then Ok true
                    else match asset e, translate e with
                         | None, _ => Raise (KeyError "asset")
                         | Some _, None => Raise (KeyError "translate")
                         | Some _, Some _ => Raise (KeyError "scale")
                         end.
Proof.
  unfold place_outcome, required_fields.
  by destruct (asset e), (translate e), (scale e).
Qed.

Lemma try_except_unfold {A} (m : M A) h w :
  try_except m h w = match m w with
                     | (Ok a, w') => (Ok a, w')
                     | (Raise e, w') => h e w'
                     end.
Proof. reflexivity. Qed.

Lemma place_loop_eq items : ∀ ents n w s,
  stage w = Some s →
  resolve (heap w) items = Some ents →
  place_loop items n w =
    (Ok (n + place_count ents),
     set_log (log w ++ place_logs ents) (set_stage (Some (place_stage ents s)) w)).
Proof.
  induction items as [|[pid l] items IH]; intros ents n w s Hs Hres; simpl in Hres.
  - injection Hres as <-. simpl. destruct w; simpl in *. subst.
    unfold ret, set_log, set_stage; simpl. by rewrite Nat.add_0_r, app_nil_r.
  - destruct (heap w !! l) as [[e|]|] eqn:El; try done.
    destruct (resolve (heap w) items) as [r|] eqn:Er; [|done].
    injection Hres as <-.
    cbn [place_loop]. rewrite bind_unfold, try_except_unfold, bind_unfold.
    rewrite (place_product_eq pid l e s w Hs El).
    set (s1 := <[product_path_of pid e := _]> s).
    rewrite place_outcome_required.
    unfold place_stage. simpl. fold (place_stage r (place_at s (pid, e))).
    destruct (required_fields e) eqn:Ereq.
    + unfold ret at 1. cbv beta iota.
      erewrite IH; [| reflexivity | exact Er].
      destruct w; unfold set_log, set_stage; simpl.
      rewrite place_outcome_required, Ereq.
      rewrite <- (assoc_L (++)). repeat f_equal; lia.
    + assert (∃ x, match asset e, translate e with
                   | None, _ => Raise (KeyError "asset")
                   | Some _, None => Raise (KeyError "translate")
                   | Some _, Some _ => Raise (KeyError "scale")
                   end = @Raise bool x) as [x Hx].
      { destruct (asset e), (translate e); eauto. }
      rewrite Hx. rewrite print_bind. unfold ret at 1.
      erewrite IH; [| reflexivity | exact Er].
      destruct w; unfold set_log, set_stage; simpl.
      rewrite place_outcome_required, Ereq, Hx.
      assert (place_log pid e = []) as ->.
      { unfold place_log. by rewrite place_outcome_required, Ereq, Hx. }
      rewrite app_nil_r, <- (assoc_L (++)). repeat f_equal.
Qed.

Lemma randomize_spec_world d num w items ents :
  heap w !! d = Some (ODict items) →
  resolve (heap w) items = Some ents →
  (0 ≤ num)%Z →
  ∃ h' items',
    randomize_product_rotations d num w =
      (Ok (length (heap w)),
       set_log (log w ++ vary_log (vary_selection num ents (rng w)) (raw (rng w))
                           (cursor (rng w) + vary_count num ents))
         (set_rng (advance (vary_count num ents
                            + 3 * length (vary_selection num ents (rng w))) (rng w))
            (set_heap h' w))) ∧
    h' !! length (heap w) = Some (ODict items') ∧
    resolve h' items' = Some (vary_pure num ents (rng w)) ∧
    (∀ l, l < length (heap w) → h' !! l = heap w !! l).
Proof.
  intros Hd Hres Hnum.
  destruct (randomize_spec d num w items ents Hd Hres Hnum)
    as (w' & items' & Hrun & Hd' & Hres' & _ & Hkeep & _ & _ & Hrng & Hst & Hfl & Hpd & Hlog).
  exists (heap w'), items'. split; [|done].
  rewrite Hrun. f_equal. destruct w, w'; simpl in *. subst.
  unfold set_log, set_rng, set_heap; simpl. reflexivity.
Qed.

Lemma place_all_eq w items ents s :
  heap w !! PRODUCT_DATA w = Some (ODict items) →
  resolve (heap w) items = Some ents →
  stage w = Some s →
  let varied := vary_pure 3 ents (rng w) in
  let sel := vary_selection 3 ents (rng w) in
  ∃ h',
    place_all_products w =
      (Ok (bool_decide (0 < place_count varied)),
       set_log (log w
                ++ vary_log sel (raw (rng w)) (cursor (rng w) + vary_count 3 ents)
                ++ place_logs varied
                ++ [MsgPlacedCount (place_count varied) (length ents)])
         (set_stage (Some (place_stage varied s))
            (set_rng (advance (vary_count 3 ents + 3 * length sel) (rng w))
               (set_heap h' w)))) ∧
    (∀ l, l < length (heap w) → h' !! l = heap w !! l).
Proof.
  intros Hd Hres Hs varied sel.
  destruct (randomize_spec_world (PRODUCT_DATA w) 3 w items ents Hd Hres)
    as (h' & items' & Hrun & Hd' & Hres' & Hkeep); [lia|].
  exists h'. split; [|done].
  unfold place_all_products.
  rewrite bind_unfold. unfold gets. cbv beta iota.
  rewrite bind_unfold, Hrun.
  unfold dict_items.
  rewrite load_dict_bind with (its := items') by done.
  rewrite bind_unfold.
  erewrite place_loop_eq; [| simpl; exact Hs | simpl; exact Hres'].
  rewrite print_bind. unfold ret.
  pose proof (resolve_length _ _ _ Hres') as Hlen'.
  pose proof (resolve_keys _ _ _ Hres') as Hkeys'.
  assert (length items' = length ents) as ->.
  { rewrite <- Hlen'. unfold vary_pure.
    generalize (cursor (rng w) + vary_count 3 ents).
    generalize (vary_selection 3 ents (rng w)). clear.
    intros sel. revert ents. induction sel as [|p sel IH]; intros ents c; simpl; [done|].
    rewrite IH. clear. induction ents as [|[k e] ents IH]; simpl; [done|].
    case_decide; simpl; by rewrite ?IH. }
  destruct w; unfold set_log, set_stage, set_rng, set_heap; simpl in *.
  fold varied sel. rewrite <- !(assoc_L (++)). reflexivity.
Qed.

Lemma same_placement_refl e : same_placement e e.
Proof. by repeat split. Qed.

Lemma same_placement_trans e1 e2 e3 :
  same_placement e1 e2 → same_placement e2 e3 → same_placement e1 e3.
Proof. unfold same_placement. intros (?&?&?&?&?) (?&?&?&?&?). repeat split; congruence. Qed.

Lemma entries_agree_refl ents : entries_agree ents ents.
Proof. apply Forall_Forall2_diag, Forall_forall. intros x _. split; [done|apply same_placement_refl]. Qed.

Lemma entries_agree_trans a b c :
  entries_agree a b → entries_agree b c → entries_agree a c.
Proof.
  unfold entries_agree. intros Hab. revert c.
  induction Hab as [|x y a b [Hk Hp] Hab IH]; intros c Hbc.
  - by inversion Hbc.
  - inversion Hbc as [|? z ? c' [Hk' Hp'] Hbc']; subst. constructor.
    + split; [congruence|]. by eapply same_placement_trans.
    + by apply IH.
Qed.

Lemma entry_update_agree k f ents :
  (∀ e, same_placement e (f e)) → entries_agree ents (entry_update k f ents).
Proof.
  intros Hf. induction ents as [|[k' e] ents IH]; simpl; [constructor|].
  case_decide.
  - constructor; [by split|apply entries_agree_refl].
  - constructor; [split; [done|apply same_placement_refl]|apply IH].
Qed.

Lemma vary_loop_agree sel ents draws c :
  entries_agree ents (vary_loop sel ents draws c).
Proof.
  revert ents c. induction sel as [|p sel IH]; intros ents c; simpl.
  - apply entries_agree_refl.
  - eapply entries_agree_trans; [|apply IH].
    apply entry_update_agree. intros e. by repeat split.
Qed.

Lemma vary_pure_agree num ents g : entries_agree ents (vary_pure num ents g).
Proof. apply vary_loop_agree. Qed.









(** ** The hierarchy build *)

Lemma collect_shelf_categories_eq items : ∀ ents acc w,
  resolve (heap w) items = Some ents →
  collect_shelf_categories items acc w = (Ok (hier_groups_from ents acc), w).
Proof.
  induction items as [|[pid l] items IH]; intros ents acc w Hres; simpl in Hres.
  - by injection Hres as <-.
  - destruct (heap w !! l) as [[e|]|] eqn:El; try done.
    destruct (resolve (heap w) items) as [r|] eqn:Er; [|done].
    injection Hres as <-. cbn [collect_shelf_categories].
    rewrite load_entry_bind with (e := e) by done.
    by rewrite (IH r).
Qed.

Lemma DefinePrim_bind {B} ty path (k : unit → M B) w s :
  stage w = Some s →
  (DefinePrim ty path ≫= k) w = k tt (set_stage (Some (define_prim ty path s)) w).
Proof.
  intros Hs. rewrite bind_unfold. unfold DefinePrim, self_stage.
  rewrite bind_unfold, Hs. reflexivity.
Qed.

Lemma for_each_define ty (f : string → string) cats : ∀ w s,
  stage w = Some s →
  for_each cats (λ c, DefinePrim ty (f c)) w =
    (Ok tt, set_stage (Some (define_all ty (f <$> cats) s)) w).
Proof.
  induction cats as [|c cats IH]; intros w s Hs.
  - destruct w; simpl in *. by subst.
  - cbn [for_each]. rewrite DefinePrim_bind with (s := s) by done.
    erewrite IH by reflexivity. destruct w; reflexivity.
Qed.

Lemma define_all_app ty p1 p2 s :
  define_all ty (p1 ++ p2) s = define_all ty p2 (define_all ty p1 s).
Proof. apply fold_left_app. Qed.

Lemma for_each_groups groups : ∀ w s,
  stage w = Some s →
  for_each groups (λ sc,
      let shelf_path := "/World/Shelf/" +:+ sc.1 in
      DefinePrim "Scope" shelf_path;;
      for_each sc.2 (λ category,
        let category_path := shelf_path +:+ "/" +:+ category in
        DefinePrim "Scope" category_path)) w =
    (Ok tt, set_stage (Some (define_all "Scope" (hier_paths groups) s)) w).
Proof.
  induction groups as [|[sh cats] groups IH]; intros w s Hs.
  - destruct w; simpl in *. by subst.
  - cbn [for_each]. rewrite bind_unfold. cbv zeta. cbn [fst snd].
    rewrite DefinePrim_bind with (s := s) by done.
    rewrite (for_each_define "Scope" (λ c, ("/World/Shelf/" +:+ sh) +:+ "/" +:+ c) cats
               _ (define_prim "Scope" ("/World/Shelf/" +:+ sh) s)) by reflexivity.
    erewrite IH by reflexivity.
    unfold hier_paths. rewrite fmap_cons.
    change (mjoin (group_paths (sh, cats) :: (group_paths <$> groups)))
      with (group_paths (sh, cats) ++ mjoin (group_paths <$> groups)).
    rewrite define_all_app. destruct w; reflexivity.
Qed.

Lemma create_hierarchy_no_anchor w s :
  stage w = Some s → s !! anchor_path = None →
  create_product_hierarchy w = (Ok false, set_log (log w ++ [MsgErrNoShelf]) w).
Proof.
  intros Hs Hp. unfold create_product_hierarchy.
  rewrite bind_unfold. unfold GetPrimAtPath, self_stage. rewrite bind_unfold, Hs.
  unfold anchor_path in Hp. unfold ret at 1. cbv beta iota. by rewrite Hp.
Qed.

Lemma create_hierarchy_eq w items ents s :
  heap w !! PRODUCT_DATA w = Some (ODict items) →
  resolve (heap w) items = Some ents →
  stage w = Some s → is_Some (s !! anchor_path) →
  create_product_hierarchy w =
    (Ok true,
     set_log (log w ++ [MsgCreatedHierarchy])
       (set_stage (Some (hier_stage ents s)) w)).
Proof.
  intros Hd Hres Hs [p Hp]. unfold create_product_hierarchy.
  rewrite bind_unfold. unfold GetPrimAtPath, self_stage. rewrite bind_unfold, Hs.
  unfold anchor_path in Hp. unfold ret at 1. cbv beta iota. rewrite Hp.
  rewrite bind_unfold. unfold gets. cbv beta iota.
  unfold dict_items. rewrite load_dict_bind with (its := items) by done.
  rewrite bind_unfold, (collect_shelf_categories_eq items ents [] w Hres).
  rewrite bind_unfold, (for_each_groups _ w s Hs).
  rewrite print_bind. destruct w; reflexivity.
Qed.

Lemma define_prim_lookup ty path (s : Stage) q :
  ty ≠ "" →
  define_prim ty path s !! q =
    if decide (q = path) then Some (set_typeName ty (prim_at s path)) else s !! q.
Proof.
  intros Hty. unfold define_prim, prim_at.
  destruct (s !! path) as [p|] eqn:E; simpl.
  - rewrite decide_False by done. rewrite lookup_insert.
    repeat case_decide; subst; done.
  - rewrite lookup_insert. repeat case_decide; subst; done.
Qed.












(** ** The whole pipeline *)

Lemma load_empty_shop_eq cfg w :
  use_current_scene cfg = false →
  (print MsgOpeningNew;; load_empty_shop_sync cfg) w =
    (Ok (attach_step cfg (stage w) (files w)).1.1,
     set_log (log w ++ (attach_step cfg (stage w) (files w)).2)
       (set_stage (attach_step cfg (stage w) (files w)).1.2 w)).
Proof.
  intros Hmode.
  unfold attach_step. rewrite Hmode.
  rewrite print_bind. unfold load_empty_shop_sync.
  rewrite print_bind, bind_unfold. unfold open_stage. cbn [files set_log].
  destruct (files w !! empty_shop_path) as [fs|] eqn:Hf.
  - cbn [negb]. rewrite print_bind.
    destruct (APPLY_SHELF_WORLD_XFORM cfg) eqn:Happly.
    + destruct (fs !! anchor_path) as [p|] eqn:Hp.
      * erewrite apply_world_transform_eq; [| done | reflexivity | exact Hp].
        unfold world_xform_log. rewrite Happly.
        destruct w; unfold set_log, set_stage; simpl.
        by rewrite <- !(assoc_L (++)).
      * erewrite apply_world_transform_no_anchor; [| done | reflexivity | exact Hp].
        destruct w; unfold set_log, set_stage; simpl.
        by rewrite <- !(assoc_L (++)).
    + rewrite apply_world_transform_disabled by done.
      destruct w; unfold set_log, set_stage; simpl.
      by rewrite <- !(assoc_L (++)).
  - cbn [negb]. rewrite print_bind. unfold ret.
    destruct w; unfold set_log, set_stage; simpl in *.
    by rewrite <- !(assoc_L (++)).
Qed.

Lemma attach_stage_eq cfg w :
  (if use_current_scene cfg
   then print MsgUsingCurrent;; add_shelf_to_existing_stage cfg
   else print MsgOpeningNew;; load_empty_shop_sync cfg) w =
    (Ok (attach_step cfg (stage w) (files w)).1.1,
     set_log (log w ++ (attach_step cfg (stage w) (files w)).2)
       (set_stage (attach_step cfg (stage w) (files w)).1.2 w)).
Proof.
  destruct (use_current_scene cfg) eqn:Hmode.
  2:{ by apply load_empty_shop_eq. }
  unfold attach_step. rewrite Hmode.
  rewrite print_bind.
  destruct (stage w) as [s|] eqn:Hs.
  - erewrite add_shelf_eq by (simpl; exact Hs).
    destruct w; unfold set_log, set_stage; simpl in *.
    by rewrite <- !(assoc_L (++)).
  - rewrite add_shelf_no_stage by (simpl; exact Hs).
    destruct w; unfold set_log, set_stage; simpl in *. subst.
    by rewrite <- !(assoc_L (++)).
Qed.

Lemma randomized_ids_app l1 l2 :
  randomized_ids (l1 ++ l2) = randomized_ids l1 ++ randomized_ids l2.
Proof.
  induction l1 as [|m l1 IH]; [done|]. destruct m; simpl; by rewrite ?IH.
Qed.

Lemma randomized_ids_vary_log sel draws c : randomized_ids (vary_log sel draws c) = sel.
Proof.
  revert c. induction sel as [|p sel IH]; intros c; simpl; [done|]. by rewrite IH.
Qed.

Lemma randomized_ids_place_logs ents : randomized_ids (place_logs ents) = [].
Proof.
  induction ents as [|[pid e] ents IH]; [done|]. simpl.
  rewrite randomized_ids_app, IH, app_nil_r. unfold place_log.
  destruct (place_outcome e); [|done]. by destruct (translate e).
Qed.

Lemma randomized_ids_attach cfg st fl :
  randomized_ids (attach_step cfg st fl).2 = [].
Proof.
  unfold attach_step, world_xform_log.
  destruct (use_current_scene cfg), st, (fl !! empty_shop_path) as [fs|],
    (APPLY_SHELF_WORLD_XFORM cfg); try reflexivity;
    destruct (fs !! anchor_path); reflexivity.
Qed.

Lemma attach_step_ok_stage cfg st fl :
  (attach_step cfg st fl).1.1 = true → is_Some (attach_step cfg st fl).1.2.
Proof.
  unfold attach_step.
  destruct (use_current_scene cfg), st, (fl !! empty_shop_path) as [fs|],
    (APPLY_SHELF_WORLD_XFORM cfg); simpl; try done; try (by eauto);
    destruct (fs !! anchor_path); simpl; try done; by eauto.
Qed.

Lemma setup_eq cfg w items ents :
  heap w !! PRODUCT_DATA w = Some (ODict items) →
  resolve (heap w) items = Some ents →
  ∃ h' g' printed,
    setup_scene_sync cfg w =
      (Ok (pipeline cfg ents (rng w) (stage w) (files w)).1,
       set_log (log w ++ printed)
         (set_stage (pipeline cfg ents (rng w) (stage w) (files w)).2
            (set_rng g' (set_heap h' w)))) ∧
    (∀ l, l < length (heap w) → h' !! l = heap w !! l) ∧
    randomized_ids printed =
      if reaches_placement cfg (stage w) (files w)
      then vary_selection 3 ents (rng w) else [].
Proof.
  destruct w as [h pd st fl g lg]. cbn [heap PRODUCT_DATA stage files rng log].
  intros Hd Hres. unfold setup_scene_sync.
  rewrite print_bind, bind_unfold, attach_stage_eq.
  unfold set_log, set_stage. cbn [heap PRODUCT_DATA stage files rng log].
  pose proof (attach_step_ok_stage cfg st fl) as Hok.
  pose proof (randomized_ids_attach cfg st fl) as Hmsgs.
  unfold pipeline, reaches_placement.
  destruct (attach_step cfg st fl) as [[ok st1] msgs] eqn:Ea.
  simpl in Hok, Hmsgs. cbn [fst snd].
  unfold set_log, set_stage, set_rng, set_heap.
  cbn [heap PRODUCT_DATA stage files rng log].
  destruct ok.
  2:{ exists h, g, (MsgStarting :: msgs). cbn [negb]. unfold ret.
      split; [|split; [done|done]].
      by rewrite <- !(assoc_L (++)). }
  destruct (Hok eq_refl) as [s1 ->]. cbn [negb].
  rewrite bind_unfold.
  destruct (s1 !! anchor_path) as [pa|] eqn:Hpa.
  2:{ erewrite create_hierarchy_no_anchor; [| reflexivity | exact Hpa].
      exists h, g, (MsgStarting :: msgs ++ [MsgErrNoShelf]).
      cbn [negb]. unfold ret, set_log. cbn [heap PRODUCT_DATA stage files rng log].
      split; [|split; [done|]].
      - by rewrite <- !(assoc_L (++)).
      - rewrite bool_decide_eq_false_2 by (by intros [? ?]).
        simpl. by rewrite randomized_ids_app, Hmsgs. }
  erewrite create_hierarchy_eq; [| exact Hd | exact Hres | reflexivity | by eauto].
  cbn [negb]. rewrite bind_unfold.
  unfold set_log, set_stage. cbn [heap PRODUCT_DATA stage files rng log].
  match goal with
  | |- context [place_all_products ?w2] =>
      destruct (place_all_eq w2 items ents (hier_stage ents s1)) as (h' & Hrun & Hkeep);
        [exact Hd | exact Hres | reflexivity |]
  end.
  rewrite Hrun. clear Hrun.
  unfold set_log, set_stage, set_rng, set_heap in *.
  cbn [heap PRODUCT_DATA stage files rng log] in *.
  set (varied := vary_pure 3 ents g).
  set (sel := vary_selection 3 ents g).
  set (g' := advance (vary_count 3 ents + 3 * length sel) g).
  rewrite (bool_decide_eq_true_2 (is_Some (Some pa))) by (by exists pa).
  assert (∀ tail, randomized_ids
            (MsgStarting :: msgs ++ MsgCreatedHierarchy ::
               vary_log sel (raw g) (cursor g + vary_count 3 ents) ++
               place_logs varied ++
               MsgPlacedCount (place_count varied) (length ents) :: tail)
          = sel ++ randomized_ids tail) as Hids.
  { intros tail. simpl. rewrite randomized_ids_app, Hmsgs. simpl.
    rewrite randomized_ids_app, randomized_ids_vary_log.
    by rewrite randomized_ids_app, randomized_ids_place_logs. }
  destruct (bool_decide (0 < place_count varied)) eqn:Hcount; cbn [negb].
  - rewrite print_bind. unfold ret, set_log.
    cbn [heap PRODUCT_DATA stage files rng log].
    exists h', g',
      (MsgStarting :: msgs ++ MsgCreatedHierarchy ::
         vary_log sel (raw g) (cursor g + vary_count 3 ents) ++
         place_logs varied ++
         MsgPlacedCount (place_count varied) (length ents) :: [MsgCompleted]).
    split; [|split; [exact Hkeep|]].
    + rewrite <- !(assoc_L (++)). reflexivity.
    + rewrite (Hids [MsgCompleted]). simpl. by rewrite app_nil_r.
  - unfold ret.
    exists h', g',
      (MsgStarting :: msgs ++ MsgCreatedHierarchy ::
         vary_log sel (raw g) (cursor g + vary_count 3 ents) ++
         place_logs varied ++
         MsgPlacedCount (place_count varied) (length ents) :: []).
    split; [|split; [exact Hkeep|]].
    + rewrite <- !(assoc_L (++)). reflexivity.
    + rewrite (Hids []). by rewrite app_nil_r.
Qed.

Lemma place_product_no_stage pid l e w :
  stage w = None → heap w !! l = Some (OEntry e) →
  place_product pid l w = (Raise AttributeError, w).
Proof.
  intros Hs Hl. unfold place_product.
  rewrite load_entry_bind with (e := e) by done.
  rewrite bind_unfold. unfold DefinePrim, self_stage. by rewrite bind_unfold, Hs.
Qed.

Lemma place_loop_no_stage items : ∀ ents n w,
  stage w = None →
  resolve (heap w) items = Some ents →
  place_loop items n w =
    (Ok n, set_log (log w ++ ((λ x, MsgErrorPlacing x.1 AttributeError) <$> items)) w).
Proof.
  induction items as [|[pid l] items IH]; intros ents n w Hs Hres; simpl in Hres.
  - destruct w; simpl in *. unfold ret, set_log; simpl. by rewrite app_nil_r.
  - destruct (heap w !! l) as [[e|]|] eqn:El; try done.
    destruct (resolve (heap w) items) as [r|] eqn:Er; [|done].
    cbn [place_loop]. rewrite bind_unfold, try_except_unfold, bind_unfold.
    rewrite (place_product_no_stage pid l e w Hs El).
    rewrite print_bind. unfold ret at 1.
    erewrite IH; [| exact Hs | exact Er].
    destruct w; unfold set_log; simpl. by rewrite <- (assoc_L (++)).
Qed.

Lemma randomized_ids_errors (items : list (string * loc)) :
  randomized_ids ((λ x, MsgErrorPlacing x.1 AttributeError) <$> items) = [].
Proof. induction items as [|x items IH]; [done|]. simpl. exact IH. Qed.

Lemma place_all_varies w items ents :
  heap w !! PRODUCT_DATA w = Some (ODict items) →
  resolve (heap w) items = Some ents →
  ∃ b w' printed,
    place_all_products w = (Ok b, w') ∧ log w' = log w ++ printed ∧
    randomized_ids printed = vary_selection 3 ents (rng w) ∧
    (ents = [] → b = false).
Proof.
  intros Hd Hres.
  destruct (stage w) as [s|] eqn:Hs.
  - destruct (place_all_eq w items ents s Hd Hres Hs) as (h' & Hrun & _).
    eexists _, _, _. split; [exact Hrun|]. split; [reflexivity|].
    split.
    + rewrite !randomized_ids_app, randomized_ids_vary_log, randomized_ids_place_logs.
      simpl. by rewrite app_nil_r.
    + intros ->. reflexivity.
  - destruct (randomize_spec_world (PRODUCT_DATA w) 3 w items ents Hd Hres)
      as (h' & items' & Hrun & Hd' & Hres' & Hkeep); [lia|].
    unfold place_all_products.
    rewrite bind_unfold. unfold gets. cbv beta iota.
    rewrite bind_unfold, Hrun.
    unfold dict_items.
    rewrite load_dict_bind with (its := items') by done.
    rewrite bind_unfold.
    erewrite place_loop_no_stage; [| simpl; exact Hs | simpl; exact Hres'].
    rewrite print_bind. unfold ret.
    eexists _, _, _. split; [reflexivity|].
    split. { simpl. rewrite <- !(assoc_L (++)). reflexivity. }
    split.
    + rewrite !randomized_ids_app, randomized_ids_vary_log, randomized_ids_errors.
      simpl. by rewrite app_nil_r.
    + intros _. reflexivity.
Qed.






(** C9.  With an empty catalog nothing can be placed, so
    [place_all_products] returns [False] and so does [setup_scene_sync],
    whatever the configuration and the scene; in attach-into-current mode
    with a stage open the run goes through every stage without an error
    and still ends on "Placed 0/0". *)
Theorem empty_catalog_reports_failure (cfg : Config) (w : World) :
  heap w !! PRODUCT_DATA w = Some (ODict []) →
  (place_all_products w).1 = Ok false ∧
  (setup_scene_sync cfg w).1 = Ok false ∧
  (use_current_scene cfg = true → is_Some (stage w) →
   last (log (setup_scene_sync cfg w).2) = Some (MsgPlacedCount 0 0)).
Proof.
  intros Hd.
  assert (resolve (heap w) [] = Some []) as Hres by done.
  split; [|split].
  - destruct (place_all_varies w [] [] Hd Hres) as (b & w' & printed & Hrun & _ & _ & Hb).
    rewrite Hrun. simpl. by rewrite Hb.
  - destruct (setup_eq cfg w [] [] Hd Hres) as (h' & g' & printed & Hrun & _).
    rewrite Hrun. simpl. unfold pipeline.
    destruct (attach_step cfg (stage w) (files w)) as [[[] [s1|]] msgs]; try done.
    by destruct (s1 !! anchor_path).
  - intros Hmode [s Hs].
    unfold setup_scene_sync.
    rewrite print_bind, bind_unfold, attach_stage_eq.
    unfold attach_step. rewrite Hmode. cbn [stage set_log]. rewrite Hs.
    cbn [fst snd negb]. rewrite bind_unfold.
    erewrite create_hierarchy_eq;
      [| exact Hd | exact Hres | reflexivity | rewrite lookup_insert_eq; by eexists].
    cbn [negb]. rewrite bind_unfold.
    match goal with
    | |- context [place_all_products ?w2] =>
        destruct (place_all_eq w2 [] [] (hier_stage []
                    (<[anchor_path := attach_prim cfg (s !! anchor_path)]> s)))
          as (h' & Hrun & _); [exact Hd | exact Hres | reflexivity |]
    end.
    rewrite Hrun. simpl. apply last_snoc.
Qed.

Lemma empty_catalog_reports_failure_witness :
  let w := mkWorld [ODict []] 0 (Some bare_anchor) ∅ sample_rng [] in
  (place_all_products w).1 = Ok false ∧
  (setup_scene_sync default_config w).1 = Ok false ∧
  (use_current_scene default_config = true → is_Some (stage w) →
   last (log (setup_scene_sync default_config w).2) = Some (MsgPlacedCount 0 0)).
Proof.
  apply (empty_catalog_reports_failure default_config
           (mkWorld [ODict []] 0 (Some bare_anchor) ∅ sample_rng [])).
  reflexivity.
Defined.

(** ** Running the pipeline again *)

Lemma comp_of_attach cfg o :
  comp_of (Some (attach_prim cfg o)) = apply_desc (attach_desc cfg) (comp_of o).
Proof.
  unfold comp_of, apply_desc, attach_desc, attach_prim. simpl.
  set (p := AddReference base_reference (ClearReferences (default (new_prim "Xform") o))).
  destruct (APPLY_SHELF_WORLD_XFORM cfg).
  - destruct (world_xform_prim_fields cfg p) as (-> & -> & -> & _).
    rewrite world_xform_prim_xformOpOrder. subst p. by destruct o.
  - subst p. by destruct o.
Qed.

Lemma comp_of_scope o :
  comp_of (Some (set_typeName "Scope" (default (new_prim "") o))) =
  apply_desc scope_desc (comp_of o).
Proof. by destruct o. Qed.

Lemma comp_of_place e o :
  comp_of (Some (place_prim e (default (new_prim "") o))) =
  apply_desc (place_desc e) (comp_of o).
Proof.
  unfold comp_of, apply_desc, place_desc. simpl.
  rewrite place_prim_typeName, place_prim_references, place_prim_payloads,
    place_prim_xformOpOrder.
  unfold place_order. destruct (asset e); by destruct o.
Qed.

Lemma run_desc_app q D1 D2 c :
  run_desc q (D1 ++ D2) c = run_desc q D2 (run_desc q D1 c).
Proof. apply fold_left_app. Qed.

Lemma comp_of_define_all paths : ∀ (s : Stage) q,
  comp_of (define_all "Scope" paths s !! q) =
  run_desc q (scope_descs paths) (comp_of (s !! q)).
Proof.
  induction paths as [|p paths IH]; intros s q; [done|].
  cbn [define_all fold_left].
  fold (define_all "Scope" paths (define_prim "Scope" p s)).
  rewrite IH. unfold scope_descs. rewrite fmap_cons.
  cbn [run_desc fold_left fst snd]. f_equal.
  rewrite define_prim_lookup by done.
  case_decide as Hq; [subst|].
  - rewrite decide_True by done. apply comp_of_scope.
  - rewrite decide_False by done. reflexivity.
Qed.

Lemma comp_of_place_stage ents : ∀ (s : Stage) q,
  comp_of (place_stage ents s !! q) =
  run_desc q (place_descs ents) (comp_of (s !! q)).
Proof.
  induction ents as [|[pid e] ents IH]; intros s q; [done|].
  cbn [place_stage fold_left]. fold (place_stage ents (place_at s (pid, e))).
  rewrite IH. unfold place_descs. rewrite fmap_cons.
  cbn [run_desc fold_left fst snd]. f_equal.
  unfold place_at. cbn [fst snd]. rewrite lookup_insert.
  case_decide as Hq; [subst|]; [|done]. apply comp_of_place.
Qed.

Lemma comp_of_current_mode_stage cfg ents varied s q :
  comp_of (current_mode_stage cfg ents varied s !! q) =
  run_desc q (pipeline_descs cfg ents varied) (comp_of (s !! q)).
Proof.
  unfold current_mode_stage, pipeline_descs, hier_stage.
  rewrite comp_of_place_stage, comp_of_define_all.
  change ((anchor_path, attach_desc cfg) :: ?a ++ ?b)
    with ([(anchor_path, attach_desc cfg)] ++ a ++ b).
  rewrite !run_desc_app. do 2 f_equal.
  cbn [run_desc fold_left fst snd]. rewrite lookup_insert.
  case_decide as Hq; [subst|]; [|done]. apply comp_of_attach.
Qed.

Lemma run_desc_acts q D : ∀ c,
  run_desc q D c = fold_left (λ c d, apply_desc d c) (acts_at q D) c.
Proof.
  unfold acts_at. induction D as [|[p d] D IH]; intros c; [done|].
  cbn [run_desc fold_left fst snd]. rewrite filter_cons. cbn [fst].
  case_decide; [rewrite fmap_cons|]; apply IH.
Qed.

Lemma fold_desc_comp ds : ∀ c,
  fold_left (λ c d, apply_desc d c) ds c =
    (foldT (d_type <$> ds) c.1.1.1, foldL (d_refs <$> ds) c.1.1.2,
     foldP (d_pay <$> ds) c.1.2, foldL (d_order <$> ds) c.2).
Proof.
  induction ds as [|d ds IH]; intros [[[t r] p] o]; [done|].
  cbn [fold_left]. rewrite IH. reflexivity.
Qed.

(** *** Type names *)

Lemma foldT_Some acts : ∀ v,
  ∃ v', foldT acts (Some v) = Some v' ∧ (v' = v ∨ ∀ o, foldT acts o = Some v').
Proof.
  induction acts as [|a acts IH]; intros v.
  - exists v. split; [done|by left].
  - destruct a as [d|t]; cbn [foldT fold_left apply_type default].
    + destruct (IH v) as (v' & Hv' & [->|Hconst]).
      * exists v. split; [done|by left].
      * exists v'. split; [done|]. right. intros o. apply Hconst.
    + destruct (IH t) as (v' & Hv' & Hcase).
      exists v'. split; [done|]. right. intros o.
      cbn [foldT fold_left apply_type]. exact Hv'.
Qed.

Lemma foldT_idem acts o : foldT acts (foldT acts o) = foldT acts o.
Proof.
  destruct acts as [|a acts]; [done|].
  cbn [foldT fold_left].
  set (u := match a with TDefault d => default d o | TSet t => t end).
  change (apply_type a o) with (Some u).
  destruct (foldT_Some acts u) as (v' & Hv' & Hcase).
  fold (foldT acts (Some u)). rewrite Hv'.
  fold (foldT acts (apply_type a (Some v'))).
  destruct Hcase as [->|Hconst]; [|apply Hconst].
  destruct a as [d|t]; simpl; [exact Hv'|]. subst u. exact Hv'.
Qed.

(** *** References and op orders *)

Lemma foldL_cases {A} (acts : list (ListAct A)) :
  (Forall (λ a, a = LKeep) acts ∧ ∀ l, foldL acts l = l) ∨
  (∃ c, ∀ l, foldL acts l = c).
Proof.
  induction acts as [|a acts IH].
  - left. split; [constructor|done].
  - destruct a as [|l0].
    + destruct IH as [[Hall Hid]|[c Hc]].
      * left. split; [by constructor|]. intros l. apply Hid.
      * right. exists c. intros l. apply Hc.
    + right. destruct IH as [[Hall Hid]|[c Hc]].
      * exists l0. intros l. cbn [foldL fold_left apply_list]. apply Hid.
      * exists c. intros l. apply Hc.
Qed.

Lemma foldL_absorb {A} (acts1 acts2 : list (ListAct A)) l :
  Forall2 same_kind acts1 acts2 →
  foldL acts2 (foldL acts1 l) = foldL acts2 l.
Proof.
  intros Hsim. destruct (foldL_cases acts2) as [[Hall Hid]|[c Hc]].
  - rewrite !Hid.
    assert (∀ l, foldL acts1 l = l) as Hid1; [|apply Hid1].
    clear Hid l. induction Hsim as [|a b acts1 acts2 Hab Hsim IH]; [done|].
    apply Forall_cons in Hall as [-> Hall].
    destruct a; [|done]. intros l. cbn [foldL fold_left apply_list]. by apply IH.
  - by rewrite !Hc.
Qed.

Lemma same_kind_refl {A} (a : ListAct A) : same_kind a a.
Proof. by destruct a. Qed.

Lemma foldL_idem {A} (acts : list (ListAct A)) l :
  foldL acts (foldL acts l) = foldL acts l.
Proof.
  apply foldL_absorb, Forall_Forall2_diag, Forall_forall.
  intros a _. apply same_kind_refl.
Qed.

(** *** Payloads: a payload added again moves to the back, it is not
    listed twice *)

Lemma filter_all {A} (P : A → Prop) `{∀ x, Decision (P x)} (l : list A) :
  (∀ x, x ∈ l → P x) → filter P l = l.
Proof.
  induction l as [|x l IH]; intros Hall; [done|].
  rewrite filter_cons_True by (apply Hall; left).
  rewrite IH; [done|]. intros y Hy. apply Hall. by right.
Qed.

Lemma filter_none {A} (P : A → Prop) `{∀ x, Decision (P x)} (l : list A) :
  (∀ x, x ∈ l → ¬ P x) → filter P l = [].
Proof.
  induction l as [|x l IH]; intros Hall; [done|].
  rewrite filter_cons_False by (apply Hall; left).
  apply IH. intros y Hy. apply Hall. by right.
Qed.

Lemma foldP_snoc acts a l : foldP (acts ++ [a]) l = apply_pay a (foldP acts l).
Proof. unfold foldP. by rewrite fold_left_app. Qed.

Lemma foldP_split acts : ∀ l,
  foldP acts l = filter (λ y, Some y ∉ acts) l ++ foldP acts [].
Proof.
  induction acts as [|a acts IH] using rev_ind; intros l.
  - simpl. rewrite app_nil_r. symmetry. apply filter_all.
    intros y _ Hin. by apply elem_of_nil in Hin.
  - rewrite !foldP_snoc, IH. destruct a as [x|]; cbn [apply_pay].
    + rewrite filter_app, list_filter_filter, <- (assoc_L (++)). f_equal.
      apply list_filter_iff. intros y. rewrite elem_of_app, list_elem_of_singleton.
      split.
      * intros [Hne Hy] [Hin|[= ->]]; done.
      * intros Hy. split; [intros ->|intros Hin]; apply Hy; [by right|by left].
    + f_equal. apply list_filter_iff. intros y.
      rewrite elem_of_app, list_elem_of_singleton.
      split; [intros Hy [Hin|Heq]; [by apply Hy|discriminate Heq]|].
      intros Hy Hin. apply Hy. by left.
Qed.

Lemma foldP_nil_elem acts y : y ∈ foldP acts [] → Some y ∈ acts.
Proof.
  induction acts as [|a acts IH] using rev_ind.
  - intros H. by apply elem_of_nil in H.
  - rewrite foldP_snoc, elem_of_app. destruct a as [x|]; cbn [apply_pay].
    + rewrite elem_of_app, !list_elem_of_singleton.
      intros [Hy| ->]; [|by right].
      apply list_elem_of_filter in Hy as [_ Hy]. left. by apply IH.
    + intros Hy. left. by apply IH.
Qed.

Lemma foldP_idem acts l : foldP acts (foldP acts l) = foldP acts l.
Proof.
  rewrite (foldP_split acts (foldP acts l)). rewrite (foldP_split acts l).
  rewrite filter_app, filter_twice, <- (assoc_L (++)). f_equal.
  assert (filter (λ y, Some y ∉ acts) (foldP acts []) = []) as ->; [|done].
  apply filter_none. intros y Hy Hnin. apply Hnin. by apply foldP_nil_elem.
Qed.

(** *** Two runs over the same catalog author the same steps *)

Lemma acts_at_sim q D1 D2 :
  Forall2 desc_sim D1 D2 →
  d_type <$> acts_at q D1 = d_type <$> acts_at q D2 ∧
  d_refs <$> acts_at q D1 = d_refs <$> acts_at q D2 ∧
  d_pay <$> acts_at q D1 = d_pay <$> acts_at q D2 ∧
  Forall2 same_kind (d_order <$> acts_at q D1) (d_order <$> acts_at q D2).
Proof.
  unfold acts_at.
  induction 1 as [|[p1 d1] [p2 d2] D1 D2 (Hp & Ht & Hr & Hy & Ho) _ IH].
  { repeat split. constructor. }
  cbn [fst snd] in *. subst p2. destruct IH as (IHt & IHr & IHp & IHo).
  rewrite !filter_cons. cbn [fst]. case_decide.
  - rewrite !fmap_cons. cbn [snd]. rewrite Ht, Hr, Hy, IHt, IHr, IHp.
    repeat split. by constructor.
  - done.
Qed.

Lemma same_placement_sym e e' : same_placement e e' → same_placement e' e.
Proof. unfold same_placement. intros (?&?&?&?&?). by repeat split. Qed.

Lemma entries_agree_sym a b : entries_agree a b → entries_agree b a.
Proof.
  induction 1 as [|x y a b [Hk Hp] _ IH]; constructor; [|done].
  split; [done|]. by apply same_placement_sym.
Qed.

Lemma place_descs_sim v1 v2 :
  entries_agree v1 v2 → Forall2 desc_sim (place_descs v1) (place_descs v2).
Proof.
  unfold place_descs.
  induction 1 as [|[k1 e1] [k2 e2] v1 v2 [Hk (Hsh & Hc & Ha & _)] _ IH];
    [constructor|].
  cbn [fst snd] in *.
  rewrite !fmap_cons. constructor; [|exact IH].
  unfold desc_sim, product_path_of, place_desc. cbn [fst snd d_type d_refs d_pay d_order].
  subst k2. rewrite Hsh, Hc, Ha. repeat split. by destruct (asset e1).
Qed.

Lemma desc_sim_refl D : Forall2 desc_sim D D.
Proof.
  apply Forall_Forall2_diag, Forall_forall. intros x _.
  repeat split. apply same_kind_refl.
Qed.

Lemma pipeline_descs_sim cfg ents v1 v2 :
  entries_agree v1 v2 →
  Forall2 desc_sim (pipeline_descs cfg ents v1) (pipeline_descs cfg ents v2).
Proof.
  intros Hv. unfold pipeline_descs. constructor.
  - repeat split. apply same_kind_refl.
  - apply Forall2_app; [apply desc_sim_refl|by apply place_descs_sim].
Qed.

(** The structure a second pass leaves at a path is the structure a single
    pass leaves there; type, references and payloads are already those the
    first pass left. *)
Lemma run_desc_rerun q D1 D2 c :
  Forall2 desc_sim D1 D2 →
  run_desc q D2 (run_desc q D1 c) = run_desc q D2 c ∧
  (run_desc q D2 (run_desc q D1 c)).1 = (run_desc q D1 c).1.
Proof.
  intros Hsim. destruct (acts_at_sim q D1 D2 Hsim) as (Ht & Hr & Hp & Ho).
  rewrite !run_desc_acts, !fold_desc_comp. cbn [fst snd].
  split.
  - rewrite <- Ht, <- Hr, <- Hp.
    rewrite foldT_idem, foldL_idem, foldP_idem.
    rewrite (foldL_absorb _ _ _ Ho). by rewrite Ht, Hr, Hp.
  - rewrite <- Ht, <- Hr, <- Hp.
    by rewrite foldT_idem, foldL_idem, foldP_idem.
Qed.

Lemma comp_of_eq_structure (s1 s2 : Stage) :
  (∀ q, comp_of (s1 !! q) = comp_of (s2 !! q)) → structure s1 = structure s2.
Proof.
  intros H. apply map_eq. intros q. unfold structure. rewrite !lookup_fmap.
  specialize (H q). unfold comp_of in H.
  destruct (s1 !! q) as [p1|], (s2 !! q) as [p2|]; simpl in *; try done.
  unfold shape. congruence.
Qed.

Lemma comp_of_eq_fixed_structure (s1 s2 : Stage) :
  (∀ q, (comp_of (s1 !! q)).1 = (comp_of (s2 !! q)).1) →
  fixed_structure s1 = fixed_structure s2.
Proof.
  intros H. apply map_eq. intros q. unfold fixed_structure. rewrite !lookup_fmap.
  specialize (H q). unfold comp_of in H.
  destruct (s1 !! q) as [p1|], (s2 !! q) as [p2|]; simpl in *; try done.
  congruence.
Qed.

Lemma current_mode_rerun cfg ents v1 v2 s :
  entries_agree ents v1 → entries_agree ents v2 →
  structure (current_mode_stage cfg ents v2 (current_mode_stage cfg ents v1 s)) =
    structure (current_mode_stage cfg ents v2 s) ∧
  fixed_structure (current_mode_stage cfg ents v2 (current_mode_stage cfg ents v1 s)) =
    fixed_structure (current_mode_stage cfg ents v1 s).
Proof.
  intros H1 H2.
  assert (Forall2 desc_sim (pipeline_descs cfg ents v1) (pipeline_descs cfg ents v2))
    as Hsim.
  { apply pipeline_descs_sim. eapply entries_agree_trans; [|exact H2].
    by apply entries_agree_sym. }
  split.
  - apply comp_of_eq_structure. intros q.
    rewrite !comp_of_current_mode_stage.
    by apply run_desc_rerun.
  - apply comp_of_eq_fixed_structure. intros q.
    rewrite !comp_of_current_mode_stage.
    by apply run_desc_rerun.
Qed.

Lemma run_desc_fixed q D1 D2 c :
  Forall2 desc_sim D1 D2 → (run_desc q D1 c).1 = (run_desc q D2 c).1.
Proof.
  intros Hsim. destruct (acts_at_sim q D1 D2 Hsim) as (Ht & Hr & Hp & _).
  rewrite !run_desc_acts, !fold_desc_comp. cbn [fst snd]. by rewrite Ht, Hr, Hp.
Qed.

Lemma place_stage_fixed v1 v2 s :
  entries_agree v1 v2 →
  fixed_structure (place_stage v1 s) = fixed_structure (place_stage v2 s).
Proof.
  intros Hv. apply comp_of_eq_fixed_structure. intros q.
  rewrite !comp_of_place_stage. by apply run_desc_fixed, place_descs_sim.
Qed.

Lemma run_desc_keeps_refs q D : ∀ c,
  Forall (λ pd, d_refs pd.2 = LKeep) D →
  (run_desc q D c).1.1.2 = c.1.1.2 ∧
  (is_Some c.1.1.1 → is_Some (run_desc q D c).1.1.1).
Proof.
  induction D as [|[p d] D IH]; intros c HD; [done|].
  apply Forall_cons in HD as [Hd HD]. cbn [run_desc fold_left fst snd] in *.
  case_decide.
  - destruct (IH (apply_desc d c) HD) as [Hr Ht]. split.
    + etrans; [exact Hr|]. unfold apply_desc. cbn [fst snd]. by rewrite Hd.
    + intros _. apply Ht. unfold apply_desc, apply_type. cbn [fst snd]. by eexists.
  - by apply IH.
Qed.

Lemma current_mode_anchor cfg ents varied s :
  ∃ p, current_mode_stage cfg ents varied s !! anchor_path = Some p ∧
       references p = [base_reference].
Proof.
  pose proof (comp_of_current_mode_stage cfg ents varied s anchor_path) as Hc.
  unfold pipeline_descs in Hc. cbn [run_desc fold_left fst snd] in Hc.
  rewrite decide_True in Hc by done.
  match type of Hc with
  | _ = fold_left _ ?D ?c =>
      destruct (run_desc_keeps_refs anchor_path D c) as [Hr Ht]
  end.
  { apply Forall_app. split; apply Forall_forall; intros x Hx.
    - apply list_elem_of_fmap in Hx as (y & -> & _). reflexivity.
    - apply list_elem_of_fmap in Hx as (y & -> & _). reflexivity. }
  unfold run_desc in Hr, Ht. rewrite <- Hc in Hr, Ht.
  destruct (current_mode_stage cfg ents varied s !! anchor_path) as [p|].
  - exists p. split; [done|]. exact Hr.
  - destruct Ht as [x Hx]; [by eexists|]. discriminate Hx.
Qed.

Lemma pipeline_current cfg ents g s fl :
  use_current_scene cfg = true →
  pipeline cfg ents g (Some s) fl =
    (bool_decide (0 < place_count (vary_pure 3 ents g)),
     Some (current_mode_stage cfg ents (vary_pure 3 ents g) s)).
Proof.
  intros Hmode. unfold pipeline, attach_step. rewrite Hmode.
  by rewrite lookup_insert_eq.
Qed.

Lemma pipeline_current_none cfg ents g fl :
  use_current_scene cfg = true → pipeline cfg ents g None fl = (false, None).
Proof. intros Hmode. unfold pipeline, attach_step. by rewrite Hmode. Qed.

(** The pure core of the rerun property. *)
Lemma pipeline_rerun cfg ents g1 g2 st fl :
  let first := pipeline cfg ents g1 st fl in
  let second := pipeline cfg ents g2 first.2 fl in
  let once := pipeline cfg ents g2 st fl in
  second.1 = once.1 ∧
  structure <$> second.2 = structure <$> once.2 ∧
  fixed_structure <$> second.2 = fixed_structure <$> first.2.
Proof.
  pose proof (vary_pure_agree 3 ents g1) as Hv1.
  pose proof (vary_pure_agree 3 ents g2) as Hv2.
  destruct (use_current_scene cfg) eqn:Hmode.
  - destruct st as [s|]; cbn zeta.
    + repeat (rewrite pipeline_current by done; cbn [fst snd]).
      cbn [fst snd fmap option_fmap option_map].
      destruct (current_mode_rerun cfg ents _ _ s Hv1 Hv2) as [-> ->]. done.
    + repeat (rewrite pipeline_current_none by done; cbn [fst snd]). done.
  - cbn zeta. unfold pipeline, attach_step. rewrite Hmode.
    assert (entries_agree (vary_pure 3 ents g2) (vary_pure 3 ents g1)) as Hv21.
    { eapply entries_agree_trans; [|exact Hv1]. by apply entries_agree_sym. }
    destruct (fl !! empty_shop_path) as [fs|]; cbn [fst snd]; [|done].
    destruct (APPLY_SHELF_WORLD_XFORM cfg);
      destruct (fs !! anchor_path) as [p|] eqn:Hp; cbn [fst snd];
      rewrite ?lookup_insert_eq, ?Hp; cbn [fst snd fmap option_fmap option_map];
      try done;
      (split; [done|]; split; [done|]; f_equal; by apply place_stage_fixed).
Qed.

(** C2.  Run [setup_scene_sync] twice on a scene, with the same catalog.
    The second run returns what a single run with the same random draws
    returns, and leaves a scene with the same structure as that single run
    leaves: the same prims, each with the same type, the same references,
    the same payloads and the same op order.  Against the scene the first
    run left, the second run adds no prim and changes no type, reference
    list or payload list (only which products carry a rotation op can
    change, with the draws).  In attach-into-current mode the anchor holds
    exactly the one reference to the base fixture after the second run. *)
Theorem setup_scene_sync_rerun (cfg : Config) (w : World)
    (items : list (string * loc)) (ents : list (string * Entry)) :
  heap w !! PRODUCT_DATA w = Some (ODict items) →
  resolve (heap w) items = Some ents →
  let first := setup_scene_sync cfg w in
  let second := setup_scene_sync cfg first.2 in
  let once := setup_scene_sync cfg (set_rng (rng first.2) w) in
  second.1 = once.1 ∧
  structure <$> stage second.2 = structure <$> stage once.2 ∧
  fixed_structure <$> stage second.2 = fixed_structure <$> stage first.2 ∧
  (use_current_scene cfg = true → is_Some (stage w) →
   ∃ s2 p, stage second.2 = Some s2 ∧ s2 !! anchor_path = Some p ∧
           references p = [mkReference empty_shop_path "/World/Shelf"]).
Proof.
  intros Hd Hres. cbn zeta.
  destruct (setup_eq cfg w items ents Hd Hres) as (h1 & g1 & pr1 & Hrun1 & Hkeep1 & _).
  rewrite Hrun1. cbn [fst snd rng set_log set_stage set_rng].
  set (st1 := (pipeline cfg ents (rng w) (stage w) (files w)).2).
  set (w1 := set_log _ (set_stage st1 _)).
  assert (PRODUCT_DATA w < length (heap w)) as Hlt by (by eapply lookup_lt_Some).
  assert (heap w1 !! PRODUCT_DATA w1 = Some (ODict items)) as Hd1.
  { unfold w1; simpl. by rewrite Hkeep1. }
  assert (resolve (heap w1) items = Some ents) as Hres1.
  { apply (resolve_preserved (heap w)); [done|]. intros l e Hl.
    unfold w1; simpl. rewrite Hkeep1; [done|]. by eapply lookup_lt_Some. }
  destruct (setup_eq cfg w1 items ents Hd1 Hres1) as (h2 & g2 & pr2 & Hrun2 & _).
  destruct (setup_eq cfg (set_rng g1 w) items ents Hd Hres)
    as (h3 & g3 & pr3 & Hrun3 & _).
  rewrite Hrun2, Hrun3. cbn [fst snd stage files rng set_log set_stage set_rng set_heap w1].
  destruct (pipeline_rerun cfg ents (rng w) g1 (stage w) (files w)) as (Hb & Hst & Hfix).
  fold st1 in Hb, Hst, Hfix.
  split; [by rewrite Hb|]. split; [exact Hst|]. split; [exact Hfix|].
  intros Hmode [s Hs]. unfold st1. rewrite Hs, pipeline_current by done. cbn [snd].
  rewrite pipeline_current by done. cbn [snd].
  destruct (current_mode_anchor cfg ents (vary_pure 3 ents g1)
              (current_mode_stage cfg ents (vary_pure 3 ents (rng w)) s))
    as (p & Hp & Hrefs).
  eexists _, p. split; [reflexivity|]. split; [exact Hp|exact Hrefs].
Qed.

Lemma setup_scene_sync_rerun_witness :
  let first := setup_scene_sync override_config sample_world in
  let second := setup_scene_sync override_config first.2 in
  let once := setup_scene_sync override_config (set_rng (rng first.2) sample_world) in
  second.1 = once.1 ∧
  structure <$> stage second.2 = structure <$> stage once.2 ∧
  fixed_structure <$> stage second.2 = fixed_structure <$> stage first.2 ∧
  (use_current_scene override_config = true → is_Some (stage sample_world) →
   ∃ s2 p, stage second.2 = Some s2 ∧ s2 !! anchor_path = Some p ∧
           references p = [mkReference empty_shop_path "/World/Shelf"]).
Proof.
  apply (setup_scene_sync_rerun override_config sample_world sample_items
           sample_entries); reflexivity.
Defined.

(** The one-entry catalog of the specification: after the pipeline the
    product node carries the payload and, being the one entry, a sampled
    rotation between its translate and scale ops. *)
Example pipeline_single_entry :
  let r := setup_scene_sync default_config single_entry_world in
  r.1 = Ok true ∧
  (shape <$> (stage r.2 ≫= (λ s, s !! "/World/Shelf/Items_Lower/Snacks/A"))) =
    Some ("", [], ["chips.usd"], [op_translate; op_rotateZYX; op_scale]) ∧
  (typeName <$> (stage r.2 ≫= (λ s, s !! "/World/Shelf/Items_Lower/Snacks"))) =
    Some "Scope".
Proof. vm_compute. repeat split. Qed.

(** * Further properties of the methods *)

(** ** [place_product] *)









(** X5.  Placements at different paths do not depend on each other: placing
    two entries in one order or the other gives the same results and the
    same scene. *)
Theorem place_product_commute (pid1 pid2 : string) (l1 l2 : loc) (e1 e2 : Entry)
    (s : Stage) (w : World) :
  stage w = Some s →
  heap w !! l1 = Some (OEntry e1) →
  heap w !! l2 = Some (OEntry e2) →
  product_path_of pid1 e1 ≠ product_path_of pid2 e2 →
  let w1 := (place_product pid1 l1 w).2 in
  let w2 := (place_product pid2 l2 w).2 in
  (place_product pid2 l2 w1).1 = (place_product pid2 l2 w).1 ∧
  (place_product pid1 l1 w2).1 = (place_product pid1 l1 w).1 ∧
  stage (place_product pid2 l2 w1).2 = stage (place_product pid1 l1 w2).2.
Proof.
  intros Hs H1 H2 Hne. cbn zeta.
  rewrite (place_product_eq pid1 l1 e1 s w Hs H1).
  rewrite (place_product_eq pid2 l2 e2 s w Hs H2). cbn [fst snd].
  erewrite (place_product_eq pid2 l2 e2); [| reflexivity | exact H2].
  erewrite (place_product_eq pid1 l1 e1); [| reflexivity | exact H1].
  cbn [fst snd stage set_log set_stage].
  split; [done|]. split; [done|]. f_equal.
  unfold prim_at. rewrite !lookup_insert_ne by done.
  by apply insert_insert_ne.
Qed.

Lemma place_product_commute_witness :
  stage (place_product "B" 1 (place_product "A" 0 sample_world).2).2 =
  stage (place_product "A" 0 (place_product "B" 1 sample_world).2).2.
Proof.
  apply (place_product_commute "A" "B" 0 1 chips soda bare_anchor sample_world).
  - reflexivity.
  - reflexivity.
  - reflexivity.
  - vm_compute. discriminate.
Defined.

(** ** [randomize_product_rotations] *)

(** X6.  With a count of zero the function only copies the dictionary: the
    result is a new dictionary with the very same bindings, no entry is
    copied, no draw is consumed and nothing is printed. *)
Theorem randomize_zero_count (d : loc) (w : World) (items : list (string * loc)) :
  heap w !! d = Some (ODict items) →
  randomize_product_rotations d 0 w =
    (Ok (length (heap w)), set_heap (heap w ++ [ODict items]) w).
Proof.
  intros Hd. unfold randomize_product_rotations.
  rewrite bind_unfold. unfold dict_copy.
  rewrite load_dict_bind with (its := items) by done.
  unfold alloc. cbv beta iota.
  rewrite bind_unfold. unfold dict_keys.
  assert (d < length (heap w)) by (by eapply lookup_lt_Some).
  rewrite load_dict_bind with (its := items)
    by (simpl; by rewrite lookup_app_r, Nat.sub_diag by lia).
  unfold ret at 1. cbv beta iota.
  rewrite random_sample_bind by lia.
  replace (Z.to_nat (0 `min` Z.of_nat (length items.*1))) with 0 by lia.
  cbn [sample_pool]. rewrite advance_0.
  destruct w; reflexivity.
Qed.

Lemma randomize_zero_count_witness :
  randomize_product_rotations 4 0 sample_world =
    (Ok (length (heap sample_world)),
     set_heap (heap sample_world ++ [ODict sample_items]) sample_world).
Proof.
  apply (randomize_zero_count 4 sample_world sample_items). reflexivity.
Defined.

(** X7.  A negative count is refused by [random.sample] with [ValueError],
    after the dictionary was copied and before anything else: no entry is
    copied or varied, no draw is consumed, nothing is printed. *)
Theorem randomize_rejects_negative_count (d : loc) (num : Z) (w : World)
    (items : list (string * loc)) :
  heap w !! d = Some (ODict items) →
  (num < 0)%Z →
  randomize_product_rotations d num w =
    (Raise ValueError, set_heap (heap w ++ [ODict items]) w).
Proof.
  intros Hd Hnum. unfold randomize_product_rotations.
  rewrite bind_unfold. unfold dict_copy.
  rewrite load_dict_bind with (its := items) by done.
  unfold alloc. cbv beta iota.
  rewrite bind_unfold. unfold dict_keys.
  assert (d < length (heap w)) by (by eapply lookup_lt_Some).
  rewrite load_dict_bind with (its := items)
    by (simpl; by rewrite lookup_app_r, Nat.sub_diag by lia).
  unfold ret at 1. cbv beta iota.
  rewrite bind_unfold. unfold random_sample.
  rewrite decide_False by lia. reflexivity.
Qed.

Lemma randomize_rejects_negative_count_witness :
  randomize_product_rotations 4 (-1) sample_world =
    (Raise ValueError,
     set_heap (heap sample_world ++ [ODict sample_items]) sample_world).
Proof.
  apply (randomize_rejects_negative_count 4 (-1) sample_world sample_items).
  - reflexivity.
  - lia.
Defined.



(** ** [apply_shelf_world_transform_if_enabled] *)

Lemma apply_world_transform_no_stage cfg w :
  APPLY_SHELF_WORLD_XFORM cfg = true → stage w = None →
  apply_shelf_world_transform_if_enabled cfg w = (Raise AttributeError, w).
Proof.
  intros Hon Hst. unfold apply_shelf_world_transform_if_enabled.
  rewrite Hon. cbn [negb]. rewrite bind_unfold.
  unfold GetPrimAtPath. rewrite bind_unfold. unfold self_stage.
  by rewrite Hst.
Qed.

Lemma world_xform_prim_mode u a t r m1 m2 p :
  world_xform_prim (mkConfig u a t r m1) p = world_xform_prim (mkConfig u a t r m2) p.
Proof.
  apply prim_eq.
  - destruct (world_xform_prim_fields (mkConfig u a t r m1) p) as (-> & _).
    by destruct (world_xform_prim_fields (mkConfig u a t r m2) p) as (-> & _).
  - destruct (world_xform_prim_fields (mkConfig u a t r m1) p) as (_ & -> & _).
    by destruct (world_xform_prim_fields (mkConfig u a t r m2) p) as (_ & -> & _).
  - destruct (world_xform_prim_fields (mkConfig u a t r m1) p) as (_ & _ & -> & _).
    by destruct (world_xform_prim_fields (mkConfig u a t r m2) p) as (_ & _ & -> & _).
  - by rewrite !world_xform_prim_xformOpOrder.
  - destruct (world_xform_prim_fields (mkConfig u a t r m1) p) as (_ & _ & _ & ->).
    by destruct (world_xform_prim_fields (mkConfig u a t r m2) p) as (_ & _ & _ & ->).
Qed.



(** X10.  Calling the step a second time right after the first leaves the
    scene exactly as the first call left it, whatever the configuration and
    the scene: the ops are cleared before they are authored, so reruns do
    not pile them up. *)
Theorem world_transform_rerun_same_scene (cfg : Config) (w : World) :
  let once := apply_shelf_world_transform_if_enabled cfg w in
  let twice := apply_shelf_world_transform_if_enabled cfg once.2 in
  twice.1 = once.1 ∧ stage twice.2 = stage once.2.
Proof.
  cbn zeta.
  destruct (APPLY_SHELF_WORLD_XFORM cfg) eqn:Hon.
  2:{ rewrite (apply_world_transform_disabled cfg w Hon). cbn [fst snd].
      by rewrite (apply_world_transform_disabled cfg w Hon). }
  destruct (stage w) as [s|] eqn:Hst.
  2:{ rewrite (apply_world_transform_no_stage cfg w Hon Hst). cbn [fst snd].
      by rewrite (apply_world_transform_no_stage cfg w Hon Hst). }
  destruct (s !! anchor_path) as [p0|] eqn:Hp0.
  - rewrite (apply_world_transform_eq cfg s p0 w Hon Hst Hp0). cbn [fst snd].
    erewrite apply_world_transform_eq; [| done | reflexivity | apply lookup_insert_eq].
    cbn [fst snd stage set_log set_stage].
    split; [done|]. f_equal.
    by rewrite world_xform_prim_idem, insert_insert_eq.
  - rewrite (apply_world_transform_no_anchor cfg s w Hon Hst Hp0). cbn [fst snd].
    by erewrite apply_world_transform_no_anchor by done.
Qed.

(** X11.  The value of [SHELF_WORLD_XFORM_MODE] has no effect on the result
    or on the scene: two configurations that differ in the mode alone
    return the same value and author the same scene (only the printed line
    names the mode). *)
Theorem world_transform_mode_irrelevant (u a : bool) (t r : Vec3) (m1 m2 : string)
    (w : World) :
  (apply_shelf_world_transform_if_enabled (mkConfig u a t r m1) w).1 =
    (apply_shelf_world_transform_if_enabled (mkConfig u a t r m2) w).1 ∧
  stage (apply_shelf_world_transform_if_enabled (mkConfig u a t r m1) w).2 =
    stage (apply_shelf_world_transform_if_enabled (mkConfig u a t r m2) w).2.
Proof.
  destruct a.
  2:{ by rewrite !apply_world_transform_disabled by done. }
  destruct (stage w) as [s|] eqn:Hst.
  2:{ by rewrite !apply_world_transform_no_stage by done. }
  destruct (s !! anchor_path) as [p0|] eqn:Hp0.
  - rewrite !(apply_world_transform_eq _ s p0 w) by done. cbn [fst snd].
    split; [done|]. cbn [stage set_log set_stage].
    by rewrite (world_xform_prim_mode u true t r m1 m2).
  - by rewrite !(apply_world_transform_no_anchor _ s w) by done.
Qed.

(** X12.  The step never creates or removes a prim and touches no prim
    other than [/World/Shelf]; it never touches the catalog, the random
    source or the files.  When it does not return [True] the scene is
    exactly as before. *)
Theorem world_transform_frame (cfg : Config) (w : World) :
  let r := apply_shelf_world_transform_if_enabled cfg w in
  heap r.2 = heap w ∧ rng r.2 = rng w ∧ files r.2 = files w ∧
  PRODUCT_DATA r.2 = PRODUCT_DATA w ∧
  (r.1 ≠ Ok true → stage r.2 = stage w) ∧
  match stage w with
  | None => stage r.2 = None
  | Some s =>
      ∃ s', stage r.2 = Some s' ∧
            (∀ q, q ≠ anchor_path → s' !! q = s !! q) ∧
            (is_Some (s' !! anchor_path) ↔ is_Some (s !! anchor_path))
  end.
Proof.
  cbn zeta.
  destruct (APPLY_SHELF_WORLD_XFORM cfg) eqn:Hon.
  2:{ rewrite apply_world_transform_disabled by done. cbn [fst snd].
      repeat (split; [done|]). destruct (stage w) as [s|]; [|done].
      exists s. done. }
  destruct (stage w) as [s|] eqn:Hst.
  2:{ rewrite apply_world_transform_no_stage by done. cbn [fst snd].
      by rewrite Hst. }
  destruct (s !! anchor_path) as [p0|] eqn:Hp0.
  - rewrite (apply_world_transform_eq cfg s p0 w Hon Hst Hp0). cbn [fst snd].
    repeat (split; [done|]).
    eexists. split; [reflexivity|]. split.
    + intros q Hq. by rewrite lookup_insert_ne by done.
    + rewrite lookup_insert_eq. split; eauto.
  - rewrite (apply_world_transform_no_anchor cfg s w Hon Hst Hp0). cbn [fst snd].
    repeat (split; [done|]).
    exists s. split; [exact Hst|]. split; [done|]. by rewrite Hp0.
Qed.

(** ** [setup_scene_sync] as a whole *)

(** The complete effect of a run: result, scene, lines printed and draws
    consumed; the heap only grows. *)
Lemma setup_trace cfg w items ents :
  heap w !! PRODUCT_DATA w = Some (ODict items) →
  resolve (heap w) items = Some ents →
  ∃ h',
    setup_scene_sync cfg w =
      (Ok (pipeline cfg ents (rng w) (stage w) (files w)).1,
       set_log (log w ++ setup_lines cfg ents (rng w) (stage w) (files w))
         (set_stage (pipeline cfg ents (rng w) (stage w) (files w)).2
            (set_rng (setup_rng cfg ents (rng w) (stage w) (files w))
               (set_heap h' w)))) ∧
    (∀ l, l < length (heap w) → h' !! l = heap w !! l) ∧
    (reaches_placement cfg (stage w) (files w) = false → h' = heap w).
Proof.
  destruct w as [h pd st fl g lg]. cbn [heap PRODUCT_DATA stage files rng log].
  intros Hd Hres. unfold setup_scene_sync.
  rewrite print_bind, bind_unfold, attach_stage_eq.
  unfold set_log, set_stage. cbn [heap PRODUCT_DATA stage files rng log].
  pose proof (attach_step_ok_stage cfg st fl) as Hok.
  unfold pipeline, reaches_placement, setup_lines, setup_rng, reaches_placement.
  destruct (attach_step cfg st fl) as [[ok st1] msgs] eqn:Ea.
  simpl in Hok. cbn [fst snd].
  unfold set_log, set_stage, set_rng, set_heap.
  cbn [heap PRODUCT_DATA stage files rng log].
  destruct ok.
  2:{ exists h. cbn [negb]. unfold ret.
      split; [|split; [done|done]].
      rewrite app_nil_r. by rewrite <- !(assoc_L (++)). }
  destruct (Hok eq_refl) as [s1 ->]. cbn [negb].
  rewrite bind_unfold.
  destruct (s1 !! anchor_path) as [pa|] eqn:Hpa.
  2:{ erewrite create_hierarchy_no_anchor; [| reflexivity | exact Hpa].
      exists h.
      cbn [negb]. unfold ret, set_log. cbn [heap PRODUCT_DATA stage files rng log].
      rewrite bool_decide_eq_false_2 by (by intros [? ?]).
      split; [|split; [done|done]].
      by rewrite <- !(assoc_L (++)). }
  erewrite create_hierarchy_eq; [| exact Hd | exact Hres | reflexivity | by eauto].
  cbn [negb]. rewrite bind_unfold.
  unfold set_log, set_stage. cbn [heap PRODUCT_DATA stage files rng log].
  match goal with
  | |- context [place_all_products ?w2] =>
      destruct (place_all_eq w2 items ents (hier_stage ents s1)) as (h' & Hrun & Hkeep);
        [exact Hd | exact Hres | reflexivity |]
  end.
  rewrite Hrun. clear Hrun.
  unfold set_log, set_stage, set_rng, set_heap in *.
  cbn [heap PRODUCT_DATA stage files rng log] in *.
  rewrite (bool_decide_eq_true_2 (is_Some (Some pa))) by (by exists pa).
  exists h'. split; [|split; [exact Hkeep|done]].
  destruct (bool_decide (0 < place_count (vary_pure 3 ents g))) eqn:Hcount; cbn [negb].
  - rewrite print_bind. unfold ret, set_log.
    cbn [heap PRODUCT_DATA stage files rng log].
    rewrite <- !(assoc_L (++)). reflexivity.
  - unfold ret. rewrite <- !(assoc_L (++)). reflexivity.
Qed.




(** X13.  In current-scene mode with no scene open, a run returns [False]
    after printing exactly the start line, the mode line and the "no stage"
    error; the catalog is not read, no random number is drawn and nothing
    else changes. *)
Theorem setup_without_open_scene (cfg : Config) (w : World) :
  use_current_scene cfg = true →
  stage w = None →
  setup_scene_sync cfg w =
    (Ok false,
     set_log (log w ++ [MsgStarting; MsgUsingCurrent; MsgErrNoStage]) w).
Proof.
  intros Hmode Hst. unfold setup_scene_sync.
  rewrite print_bind, bind_unfold, attach_stage_eq.
  unfold attach_step. rewrite Hmode. cbn [stage set_log]. rewrite Hst.
  cbn [fst snd negb]. unfold ret.
  destruct w; unfold set_log, set_stage; simpl in *. subst.
  by rewrite <- !(assoc_L (++)).
Qed.

Lemma setup_without_open_scene_witness :
  setup_scene_sync default_config (set_stage None sample_world) =
    (Ok false,
     set_log [MsgStarting; MsgUsingCurrent; MsgErrNoStage]
       (set_stage None sample_world)).
Proof.
  apply (setup_without_open_scene default_config (set_stage None sample_world)).
  - reflexivity.
  - reflexivity.
Defined.

(** X14.  In new-stage mode, when the shop file cannot be opened, a run
    returns [False] after printing exactly the start line, the mode line,
    the loading line and the failure line; the scene that was open stays
    as it was, and neither the catalog nor the random source is touched. *)
Theorem setup_load_failure (cfg : Config) (w : World) :
  use_current_scene cfg = false →
  files w !! empty_shop_path = None →
  setup_scene_sync cfg w =
    (Ok false,
     set_log (log w ++ [MsgStarting; MsgOpeningNew; MsgLoading;
                        MsgLoadFailed empty_shop_path]) w).
Proof.
  intros Hmode Hfl. unfold setup_scene_sync.
  rewrite print_bind, bind_unfold, attach_stage_eq.
  unfold attach_step. rewrite Hmode. cbn [files set_log]. rewrite Hfl.
  cbn [fst snd negb]. unfold ret.
  destruct w; unfold set_log, set_stage; simpl in *. subst.
  by rewrite <- !(assoc_L (++)).
Qed.

Lemma setup_load_failure_witness :
  setup_scene_sync new_stage_config sample_world =
    (Ok false,
     set_log [MsgStarting; MsgOpeningNew; MsgLoading; MsgLoadFailed empty_shop_path]
       sample_world).
Proof.
  apply (setup_load_failure new_stage_config sample_world).
  - reflexivity.
  - reflexivity.
Defined.





(** X17.  A run never modifies the catalog: whatever the mode and the
    outcome, every object that was on the heap is unchanged, so
    [PRODUCT_DATA] still denotes the same entries afterwards (the variation
    works on copies). *)
Theorem setup_preserves_catalog (cfg : Config) (w : World)
    (items : list (string * loc)) (ents : list (string * Entry)) :
  heap w !! PRODUCT_DATA w = Some (ODict items) →
  resolve (heap w) items = Some ents →
  let w' := (setup_scene_sync cfg w).2 in
  PRODUCT_DATA w' = PRODUCT_DATA w ∧
  heap w' !! PRODUCT_DATA w' = Some (ODict items) ∧
  resolve (heap w') items = Some ents ∧
  (∀ l o, heap w !! l = Some o → heap w' !! l = Some o) ∧
  files w' = files w.
Proof.
  intros Hd Hres. cbn zeta.
  destruct (setup_trace cfg w items ents Hd Hres) as (h' & Hrun & Hkeep & _).
  rewrite Hrun. cbn [snd]. unfold set_log, set_stage, set_rng, set_heap.
  cbn [heap PRODUCT_DATA stage files rng log].
  assert (∀ l o, heap w !! l = Some o → h' !! l = Some o) as Hsame.
  { intros l o Hl. rewrite Hkeep; [done|]. by eapply lookup_lt_Some. }
  split; [done|]. split; [by apply Hsame|]. split; [|done].
  eapply resolve_preserved; [exact Hres|]. intros l e. apply Hsame.
Qed.

Lemma setup_preserves_catalog_witness :
  resolve (heap (setup_scene_sync default_config sample_world).2) sample_items
    = Some sample_entries.
Proof.
  destruct (setup_preserves_catalog default_config sample_world sample_items
              sample_entries) as (_ & _ & H & _).
  - reflexivity.
  - reflexivity.
  - exact H.
Defined.

(** ** [load_empty_shop_sync] *)

(** X18.  When the shop file can be opened, the scene that was open before
    has no influence: result and world are those obtained from any other
    previously open scene.  The new scene is the file's, with at most
    [/World/Shelf] changed, and the call returns [True] unless the world
    transform is enabled and the file has no [/World/Shelf]. *)
Theorem load_empty_shop_discards_open_scene (cfg : Config) (w : World)
    (fs : Stage) (st' : option Stage) :
  files w !! empty_shop_path = Some fs →
  load_empty_shop_sync cfg (set_stage st' w) = load_empty_shop_sync cfg w ∧
  (load_empty_shop_sync cfg w).1 =
    Ok (negb (APPLY_SHELF_WORLD_XFORM cfg) || bool_decide (is_Some (fs !! anchor_path))) ∧
  ∃ s', stage (load_empty_shop_sync cfg w).2 = Some s' ∧
        ∀ q, q ≠ anchor_path → s' !! q = fs !! q.
Proof.
  intros Hf. destruct w as [h pd st fl g lg]. cbn [files] in Hf.
  unfold load_empty_shop_sync. rewrite !print_bind, !bind_unfold.
  unfold open_stage, set_log, set_stage.
  cbn [heap PRODUCT_DATA stage files rng log]. rewrite Hf. cbn [negb].
  split; [reflexivity|].
  rewrite print_bind. unfold set_log. cbn [heap PRODUCT_DATA stage files rng log].
  destruct (APPLY_SHELF_WORLD_XFORM cfg) eqn:Hon.
  2:{ rewrite apply_world_transform_disabled by done. cbn [fst snd negb orb stage].
      split; [done|]. by exists fs. }
  destruct (fs !! anchor_path) as [pa|] eqn:Hpa.
  - erewrite apply_world_transform_eq; [| done | reflexivity | exact Hpa].
    cbn [fst snd negb orb stage set_log set_stage].
    split. { by rewrite bool_decide_eq_true_2 by eauto. }
    eexists. split; [reflexivity|]. intros q Hq. by rewrite lookup_insert_ne by done.
  - erewrite apply_world_transform_no_anchor; [| done | reflexivity | exact Hpa].
    cbn [fst snd negb orb stage set_log set_stage].
    split. { by rewrite bool_decide_eq_false_2 by (by intros [? ?]). }
    by exists fs.
Qed.

Lemma load_empty_shop_discards_open_scene_witness :
  load_empty_shop_sync new_stage_config (set_stage (Some leftover_stage) shop_world)
    = load_empty_shop_sync new_stage_config shop_world.
Proof.
  destruct (load_empty_shop_discards_open_scene new_stage_config shop_world
              bare_anchor (Some leftover_stage)) as (H & _).
  - reflexivity.
  - exact H.
Defined.

(** ** [create_product_hierarchy] *)










(** X21.  With an empty catalog and [/World/Shelf] present the build
    returns [True], prints its line and leaves the scene untouched. *)
Theorem create_hierarchy_empty_catalog (w : World) (s : Stage) :
  heap w !! PRODUCT_DATA w = Some (ODict []) →
  stage w = Some s →
  is_Some (s !! anchor_path) →
  create_product_hierarchy w =
    (Ok true, set_log (log w ++ [MsgCreatedHierarchy]) w).
Proof.
  intros Hd Hs Ha.
  rewrite (create_hierarchy_eq w [] [] s Hd eq_refl Hs Ha).
  f_equal. destruct w; simpl in *. by subst.
Qed.

Lemma create_hierarchy_empty_catalog_witness :
  create_product_hierarchy
    (mkWorld [ODict []] 0 (Some leftover_stage) ∅ sample_rng []) =
    (Ok true,
     mkWorld [ODict []] 0 (Some leftover_stage) ∅ sample_rng [MsgCreatedHierarchy]).
Proof.
  apply (create_hierarchy_empty_catalog
           (mkWorld [ODict []] 0 (Some leftover_stage) ∅ sample_rng [])
           leftover_stage).
  - reflexivity.
  - reflexivity.
  - by eexists.
Defined.

(** ** [add_shelf_to_existing_stage] *)

(** X22.  With the world transform disabled, attaching the shelf to a scene
    that already has [/World/Shelf] changes nothing but the references of
    that prim: its type, payloads, op order and attributes, and every other
    prim, stay as they were. *)
Theorem add_shelf_keeps_authored_transform (cfg : Config) (w : World) (s : Stage)
    (p0 : Prim) :
  APPLY_SHELF_WORLD_XFORM cfg = false →
  stage w = Some s →
  s !! anchor_path = Some p0 →
  add_shelf_to_existing_stage cfg w =
    (Ok true,
     set_log (log w ++ [MsgReferenced empty_shop_path "/World/Shelf"])
       (set_stage
          (Some (<[anchor_path :=
                     set_references [mkReference empty_shop_path "/World/Shelf"] p0]> s))
          w)).
Proof.
  intros Hoff Hs Hp0.
  rewrite (add_shelf_eq cfg s w Hs).
  unfold world_xform_log, attach_prim. rewrite Hoff, Hp0. reflexivity.
Qed.

Lemma add_shelf_keeps_authored_transform_witness :
  add_shelf_to_existing_stage default_config sample_world =
    (Ok true,
     set_log [MsgReferenced empty_shop_path "/World/Shelf"]
       (set_stage
          (Some (<[anchor_path :=
                     set_references [mkReference empty_shop_path "/World/Shelf"]
                       (new_prim "Xform")]> bare_anchor))
          sample_world)).
Proof.
  apply (add_shelf_keeps_authored_transform default_config sample_world
           bare_anchor (new_prim "Xform")).
  - reflexivity.
  - reflexivity.
  - reflexivity.
Defined.

(** ** [place_all_products] *)










(** X23.  With no scene open the call still makes its copies and draws,
    then fails every placement: it returns [False], prints one
    "Error placing" line with [AttributeError] for every entry of the
    catalog and ends with "Placed 0/n". *)
Theorem place_all_products_without_scene (w : World)
    (items : list (string * loc)) (ents : list (string * Entry)) :
  heap w !! PRODUCT_DATA w = Some (ODict items) →
  resolve (heap w) items = Some ents →
  stage w = None →
  ∃ w' printed,
    place_all_products w = (Ok false, w') ∧
    stage w' = None ∧
    log w' = log w ++ printed ∧
    last printed = Some (MsgPlacedCount 0 (length items)) ∧
    (∀ pid, pid ∈ items.*1 → MsgErrorPlacing pid AttributeError ∈ printed).
Proof.
  intros Hd Hres Hst.
  destruct (randomize_spec (PRODUCT_DATA w) 3 w items ents Hd Hres)
    as (w1 & items' & Hrun & Hd' & Hres' & Hkeys & _ & _ & _ & _ & Hst1 & _ & _ & Hlog);
    [lia|].
  unfold place_all_products.
  rewrite bind_unfold. unfold gets. cbv beta iota.
  rewrite bind_unfold, Hrun.
  unfold dict_items.
  rewrite load_dict_bind with (its := items') by done.
  rewrite bind_unfold.
  erewrite place_loop_no_stage; [| by rewrite Hst1 | exact Hres'].
  rewrite print_bind. unfold ret.
  assert (length items' = length items) as Hlen.
  { by rewrite <- (length_fmap fst items'), Hkeys, length_fmap. }
  eexists _, (vary_log (vary_selection 3 ents (rng w)) (raw (rng w))
                (cursor (rng w) + vary_count 3 ents)
              ++ ((λ x, MsgErrorPlacing x.1 AttributeError) <$> items')
              ++ [MsgPlacedCount 0 (length items)]).
  split; [reflexivity|].
  cbn [stage log set_log]. split; [by rewrite Hst1|].
  split. { rewrite Hlog, Hlen. by rewrite <- !(assoc_L (++)). }
  split. { rewrite !(assoc_L (++)). apply last_snoc. }
  intros pid Hpid. rewrite <- Hkeys in Hpid.
  apply list_elem_of_fmap in Hpid as ([k l] & -> & Hin).
  apply elem_of_app. right. apply elem_of_app. left.
  apply list_elem_of_fmap. by exists (k, l).
Qed.

Lemma place_all_products_without_scene_witness :
  (place_all_products (set_stage None sample_world)).1 = Ok false.
Proof.
  destruct (place_all_products_without_scene (set_stage None sample_world)
              sample_items sample_entries) as (w' & printed & H & _).
  - reflexivity.
  - reflexivity.
  - reflexivity.
  - rewrite H. reflexivity.
Defined.





Lemma outcome_ids_app l1 l2 :
  outcome_ids (l1 ++ l2) = outcome_ids l1 ++ outcome_ids l2.
Proof.
  induction l1 as [|m l1 IH]; [done|]. destruct m; simpl; by rewrite ?IH.
Qed.

Lemma outcome_ids_vary_log sel draws c : outcome_ids (vary_log sel draws c) = [].
Proof. revert c. induction sel as [|p sel IH]; intros c; simpl; [done|]. apply IH. Qed.

Lemma outcome_ids_place_logs ents : outcome_ids (place_logs ents) = ents.*1.
Proof.
  induction ents as [|[pid e] ents IH]; [done|]. simpl.
  rewrite outcome_ids_app, IH. f_equal. unfold place_log, place_outcome.
  destruct (asset e); [|done]. destruct (translate e); [|done].
  by destruct (scale e).
Qed.

Lemma agree_keys a b : entries_agree a b → b.*1 = a.*1.
Proof.
  induction 1 as [|[k e] [k' e'] a b [Hk _] _ IH]; [done|].
  simpl in Hk. subst k'. rewrite !fmap_cons. cbn [fst]. by rewrite IH.
Qed.

(** X26.  Every entry of the catalog is accounted for exactly once and in
    catalog order: the "Placed product" and "Error placing" lines the call
    prints name, one after the other, the keys of the catalog, whether a
    scene is open or not. *)
Theorem place_all_products_reports_each_entry (w : World)
    (items : list (string * loc)) (ents : list (string * Entry)) :
  heap w !! PRODUCT_DATA w = Some (ODict items) →
  resolve (heap w) items = Some ents →
  ∃ printed,
    log (place_all_products w).2 = log w ++ printed ∧
    outcome_ids printed = items.*1.
Proof.
  intros Hd Hres.
  destruct (stage w) as [s|] eqn:Hs.
  - destruct (place_all_eq w items ents s Hd Hres Hs) as (h' & Hrun & _).
    cbn zeta in Hrun. rewrite Hrun. cbn [snd log set_log].
    eexists. split; [reflexivity|].
    rewrite !outcome_ids_app, outcome_ids_vary_log, outcome_ids_place_logs.
    simpl. rewrite app_nil_r.
    rewrite <- (resolve_keys _ _ _ Hres).
    apply agree_keys, vary_pure_agree.
  - destruct (randomize_spec (PRODUCT_DATA w) 3 w items ents Hd Hres)
      as (w1 & items' & Hrun & Hd' & Hres' & Hkeys & _ & _ & _ & _ & Hst1 & _ & _ & Hlog);
      [lia|].
    unfold place_all_products.
    rewrite bind_unfold. unfold gets. cbv beta iota.
    rewrite bind_unfold, Hrun.
    unfold dict_items.
    rewrite load_dict_bind with (its := items') by done.
    rewrite bind_unfold.
    erewrite place_loop_no_stage; [| by rewrite Hst1 | exact Hres'].
    rewrite print_bind. unfold ret. cbn [snd log set_log]. rewrite Hlog.
    eexists. split; [by rewrite <- !(assoc_L (++))|].
    rewrite !outcome_ids_app, outcome_ids_vary_log. simpl. rewrite app_nil_r.
    rewrite <- Hkeys. clear. induction items' as [|[k l] items' IH]; [done|].
    rewrite !fmap_cons. cbn [fst outcome_ids]. by rewrite IH.
Qed.

Lemma place_all_products_reports_each_entry_witness :
  ∃ printed,
    log (place_all_products sample_world).2 = log sample_world ++ printed ∧
    outcome_ids printed = ["A"; "B"; "C"; "D"].
Proof.
  apply (place_all_products_reports_each_entry sample_world sample_items
           sample_entries).
  - reflexivity.
  - reflexivity.
Defined.
